(** * A shallow embedding of the PDF-to-image conversion service (src/index.js)

    The service keeps an in-memory job tracker ([conversionJobs], a [Map]
    from job ids to job objects), runs one asynchronous conversion pipeline
    per uploaded document ([convertPDFToImages]) and exposes a few HTTP
    routes.  The PDF renderer (pdfjs), the canvas, the image encoder (sharp)
    and the clock are external collaborators: their results are supplied by
    an environment record, so every theorem holds for all of their possible
    outcomes.

    Effects are modelled as explicit state passing with JavaScript
    exceptions as [Throw msg] (the [message] of the thrown [Error]).  Every
    [await] is a point where other handlers may run and read the job
    record; the pipeline records a snapshot of its job at each of them. *)

From Stdlib Require Import ZArith QArith String Ascii List Lia Bool Sorting.
From Stdlib Require Import Floats.SpecFloat.
From stdpp Require Import base gmap list strings sorting pretty.
Import ListNotations.

Open Scope string_scope.
Open Scope list_scope.

(* ------------------------------------------------------------------ *)
(** ** Results of JavaScript computations that may throw *)

Inductive res (A : Type) : Type :=
| Ok (a : A)
| Throw (msg : string).
Arguments Ok {A} a.
Arguments Throw {A} msg.

(** A state monad with exceptions over an arbitrary state [S]. *)
Definition ST (S A : Type) : Type := S -> res A * S.

Definition ret {S A} (a : A) : ST S A := fun s => (Ok a, s).
Definition throw {S A} (m : string) : ST S A := fun s => (Throw m, s).
Definition bind {S A B} (c : ST S A) (k : A -> ST S B) : ST S B :=
  fun s => match c s with
           | (Ok a, s') => k a s'
           | (Throw m, s') => (Throw m, s')
           end.
(** [try { c } catch (e) { h(e.message) }] *)
Definition catch {S A} (c : ST S A) (h : string -> ST S A) : ST S A :=
  fun s => match c s with
           | (Ok a, s') => (Ok a, s')
           | (Throw m, s') => h m s'
           end.

Notation "x <-- c1 ;; c2" := (bind c1 (fun x => c2))
  (at level 100, c1 at next level, right associativity).
Notation "c1 ;;; c2" := (bind c1 (fun _ => c2))
  (at level 100, right associativity).

(** [for (const x of xs) { body(x) }] *)
Fixpoint for_each {S A} (xs : list A) (body : A -> ST S unit) : ST S unit :=
  match xs with
  | [] => ret tt
  | x :: xs' => body x ;;; for_each xs' body
  end.

(* ------------------------------------------------------------------ *)
(** ** Paths and Node's [path.join]

    A path is its list of segments from the root.  [path.join(p, s)]
    splits [s] on ['/'] and normalises: empty and ["."] segments vanish,
    [".."] removes the previous segment (never above the root). *)

Definition path := list string.

Fixpoint split_slash_aux (cur : string) (s : string) : list string :=
  match s with
  | EmptyString => [cur]
  | String c s' =>
      if Ascii.eqb c "/" then cur :: split_slash_aux "" s'
      else split_slash_aux (cur +:+ String c "") s'
  end.
Definition split_slash (s : string) : list string := split_slash_aux "" s.

Fixpoint normalize_rev (acc : list string) (l : list string) : list string :=
  match l with
  | [] => acc
  | seg :: l' =>
      if String.eqb seg "" || String.eqb seg "." then normalize_rev acc l'
      else if String.eqb seg ".." then normalize_rev (tail acc) l'
      else normalize_rev (seg :: acc) l'
  end.

Definition path_join (p : path) (s : string) : path :=
  rev (normalize_rev (rev p) (split_slash s)).

(** An absolute path string, as multer stores [req.file.path]. *)
Definition to_path (s : string) : path := path_join [] s.
Definition path_str (p : path) : string := "/" +:+ String.concat "/" p.

(** A proper directory entry name: not empty, not ["."] or [".."], no ['/']. *)
Definition seg_ok (s : string) : Prop :=
  s <> "" /\ s <> "." /\ s <> ".." /\ ~ In "/"%char (list_ascii_of_string s).

(** [__dirname]: the directory of the module.  Its value does not matter. *)
Definition app_dir : path := ["srv"; "pdf-to-image"].

(* ------------------------------------------------------------------ *)
(** ** The file system ([fs.promises])

    Files map paths to their bytes, directories form a set; [fs_readonly]
    are the paths on which unlink, writeFile and the creation of a
    directory fail (EACCES). *)

Definition bytes := list Byte.byte.

Record fsys := mkFs {
  fs_files : gmap path bytes;
  fs_dirs : gset path;
  fs_readonly : gset path;
}.

Inductive event :=
| EvAccess (p : path)
| EvReaddir (p : path)
| EvUnlink (p : path)
| EvReadFile (p : path)
| EvMkdir (p : path)
| EvWriteFile (p : path) (b : bytes)
| EvGetDocument
| EvGetPage (n : nat)
| EvRender (n : nat).

(** The file-system monad: the file system and the log of operations. *)
Definition FM := ST (fsys * list event).

Definition log_ev (e : event) : FM unit :=
  fun '(f, l) => (Ok tt, (f, l ++ [e])).

Definition enoent (op : string) (p : path) : string :=
  "ENOENT: no such file or directory, " +:+ op +:+ " '" +:+ path_str p +:+ "'".

Definition exists_path (f : fsys) (p : path) : bool :=
  bool_decide (p ∈ dom (fs_files f)) || bool_decide (p ∈ fs_dirs f).

(** [await fs.access(p)] *)
Definition fs_access (p : path) : FM unit :=
  log_ev (EvAccess p) ;;;
  fun '(f, l) =>
    if exists_path f p then (Ok tt, (f, l)) else (Throw (enoent "access" p), (f, l)).

(** [Some n] when [q] is [p ++ [n]]. *)
Definition child_name (p q : path) : option string :=
  if bool_decide (length q = S (length p)) && bool_decide (take (length p) q = p)
  then last q else None.

(** The names of the entries of directory [p] (files and directories). *)
Definition dir_entries (f : fsys) (p : path) : list string :=
  remove_dups (omap (child_name p) (elements (dom (fs_files f)) ++ elements (fs_dirs f))).

(** [await fs.readdir(p)] *)
Definition fs_readdir (p : path) : FM (list string) :=
  log_ev (EvReaddir p) ;;;
  fun '(f, l) =>
    if bool_decide (p ∈ fs_dirs f) then (Ok (dir_entries f p), (f, l))
    else (Throw (enoent "scandir" p), (f, l)).

(** [await fs.unlink(p)]: fails on a missing path, a directory, or a
    read-only file. *)
Definition fs_unlink (p : path) : FM unit :=
  log_ev (EvUnlink p) ;;;
  fun '(f, l) =>
    if bool_decide (p ∈ fs_dirs f) then
      (Throw ("EISDIR: illegal operation on a directory, unlink '" +:+ path_str p +:+ "'"), (f, l))
    else if bool_decide (p ∈ fs_readonly f) then
      (Throw ("EACCES: permission denied, unlink '" +:+ path_str p +:+ "'"), (f, l))
    else match fs_files f !! p with
    | Some _ => (Ok tt, (mkFs (delete p (fs_files f)) (fs_dirs f) (fs_readonly f), l))
    | None => (Throw (enoent "unlink" p), (f, l))
    end.

(** [await fs.readFile(p)] *)
Definition fs_readFile (p : path) : FM bytes :=
  log_ev (EvReadFile p) ;;;
  fun '(f, l) =>
    if bool_decide (p ∈ fs_dirs f) then
      (Throw "EISDIR: illegal operation on a directory, read", (f, l))
    else match fs_files f !! p with
    | Some b => (Ok b, (f, l))
    | None => (Throw (enoent "open" p), (f, l))
    end.

(** The non-empty prefixes of a path: [mkdir -p] creates all of them. *)
Definition path_prefixes (p : path) : list path :=
  map (fun k => take k p) (seq 1 (length p)).

(** The walk of [mkdir -p] over the prefixes [qs] of [p], top down: a
    directory is passed; a file stops it with [EEXIST] when it is [p]
    itself and [ENOTDIR] otherwise; a missing one is created, unless it
    cannot be written ([EACCES]; the directories created before it stay). *)
Fixpoint mkdirp_go (p : path) (qs : list path) (f : fsys) : res unit * fsys :=
  match qs with
  | [] => (Ok tt, f)
  | q :: qs' =>
      if bool_decide (q ∈ dom (fs_files f)) then
        (Throw (if bool_decide (q = p)
                then "EEXIST: file already exists, mkdir '" +:+ path_str p +:+ "'"
                else "ENOTDIR: not a directory, mkdir '" +:+ path_str p +:+ "'"), f)
      else if bool_decide (q ∈ fs_dirs f) then mkdirp_go p qs' f
      else if bool_decide (q ∈ fs_readonly f) then
        (Throw ("EACCES: permission denied, mkdir '" +:+ path_str q +:+ "'"), f)
      else mkdirp_go p qs' (mkFs (fs_files f) ({[q]} ∪ fs_dirs f) (fs_readonly f))
  end.

(** [await fs.mkdir(p, { recursive: true })] *)
Definition fs_mkdir_recursive (p : path) : FM unit :=
  log_ev (EvMkdir p) ;;;
  fun '(f, l) => let '(r, f') := mkdirp_go p (path_prefixes p) f in (r, (f', l)).

(** [await fs.writeFile(p, b)] *)
Definition fs_writeFile (p : path) (b : bytes) : FM unit :=
  log_ev (EvWriteFile p b) ;;;
  fun '(f, l) =>
    if bool_decide (p ∈ fs_dirs f) then
      (Throw ("EISDIR: illegal operation on a directory, open '" +:+ path_str p +:+ "'"), (f, l))
    else if negb (bool_decide (removelast p ∈ fs_dirs f)) then
      (Throw (enoent "open" p), (f, l))
    else if bool_decide (p ∈ fs_readonly f) then
      (Throw ("EACCES: permission denied, open '" +:+ path_str p +:+ "'"), (f, l))
    else (Ok tt, (mkFs (<[p := b]> (fs_files f)) (fs_dirs f) (fs_readonly f), l)).

(** A well-formed file system: every segment is a proper name, every
    entry below the root lies in a directory, no path is both a file and
    a directory, and the root is a directory. *)
Definition fs_wf (f : fsys) : Prop :=
  (forall q, q ∈ dom (fs_files f) \/ q ∈ fs_dirs f -> Forall seg_ok q) /\
  (forall q n, (q ++ [n]) ∈ dom (fs_files f) \/ (q ++ [n]) ∈ fs_dirs f ->
               q = [] \/ q ∈ fs_dirs f) /\
  (forall q, q ∈ dom (fs_files f) -> q ∉ fs_dirs f) /\
  [] ∈ fs_dirs f.

(* ------------------------------------------------------------------ *)
(** ** Configuration ([config]) *)

Record jpeg_opts := mkJpeg {
  jpeg_quality : Z; jpeg_progressive : bool; jpeg_optimizeScans : bool;
  jpeg_chromaSubsampling : string; jpeg_trellisQuantisation : bool;
  jpeg_overshootDeringing : bool; jpeg_optimizeCoding : bool }.
Record png_opts := mkPng {
  png_compressionLevel : Z; png_adaptiveFiltering : bool; png_palette : bool;
  png_quality : Z }.
Record resize_opts := mkResize {
  resize_enabled : bool; resize_maxWidth : Z; resize_maxHeight : Z; resize_fit : string }.
Record sharpening_opts := mkSharpening {
  sharpening_enabled : bool; sharpening_sigma : Q; sharpening_strength : Q }.
Record compression_opts := mkCompression {
  co_jpeg : jpeg_opts; co_png : png_opts; co_resize : resize_opts;
  co_sharpening : sharpening_opts }.
Record config_t := mkConfig {
  inputDir : path; outputDir : path; imageFormat : string; scale : Q;
  compressionOptions : compression_opts }.

Definition config : config_t := {|
  inputDir := app_dir ++ ["pdfs"];
  outputDir := app_dir ++ ["images"];
  imageFormat := "jpeg";
  scale := (15 # 10)%Q;
  compressionOptions := {|
    co_jpeg := mkJpeg 75 true true "4:2:0" true true true;
    co_png := mkPng 7 true true 75;
    co_resize := mkResize true 1200 1600 "inside";
    co_sharpening := mkSharpening true (5 # 10)%Q (3 # 10)%Q |} |}.

(* ------------------------------------------------------------------ *)
(** ** Directory cleaning *)

(** [cleanupDirectories]: every error is logged and swallowed. *)
Definition cleanupDirectories : FM unit :=
  catch
    (pdfFiles <-- fs_readdir (inputDir config) ;;
     for_each pdfFiles (fun file => fs_unlink (path_join (inputDir config) file)))
    (fun _ => ret tt).

(** [cleanDirectoryImages(directoryId)], with [directoryId.toString()]
    given as [dirId].  The inner [try] returns early when the directory
    does not exist; any later error is logged and rethrown. *)
Definition cleanDirectoryImages (dirId : string) : FM unit :=
  let dirPath := path_join (outputDir config) dirId in
  catch
    (present <-- catch (fs_access dirPath ;;; ret true) (fun _ => ret false) ;;
     if present then
       files <-- fs_readdir dirPath ;;
       for_each files (fun file => fs_unlink (path_join dirPath file))
     else ret tt)
    (fun m => throw m).

(* ------------------------------------------------------------------ *)
(** ** JavaScript numbers (IEEE binary64) *)

Definition js_of_Z (z : Z) : spec_float := binary_normalize 53 1024 z 0 false.
Definition js_of_nat (n : nat) : spec_float := js_of_Z (Z.of_nat n).
Definition js_div : spec_float -> spec_float -> spec_float := SFdiv 53 1024.
Definition js_mul : spec_float -> spec_float -> spec_float := SFmul 53 1024.

(** [Math.floor] *)
Definition js_floor (x : spec_float) : spec_float :=
  match x with
  | S754_finite s m e =>
      if (0 <=? e)%Z then x
      else
        let q := Z.shiftr (Zpos m) (- e) in
        if s then
          let r := if Z.eqb (Z.shiftl q (- e)) (Zpos m) then q else (q + 1)%Z in
          js_of_Z (- r)
        else js_of_Z q
  | _ => x
  end.

(** The string [x.toFixed(2)], given by its content: ["NaN"],
    ["Infinity"] or ["-Infinity"], a sign and [n] hundredths, or
    [String(x)] when [|x| >= 1e21]. *)
Inductive fixed_str :=
| FxNaN
| FxInfinity (neg : bool)
| FxDigits (neg : bool) (n : Z)
| FxLarge (x : spec_float).

(** [|x| >= 10^21] for [|x| = m * 2^e]. *)
Definition ge_1e21 (m : positive) (e : Z) : bool :=
  if (0 <=? e)%Z then (10 ^ 21 <=? Z.shiftl (Zpos m) e)%Z
  else (Z.shiftl (10 ^ 21) (- e) <=? Zpos m)%Z.

(** The integer [n] nearest to [100 * m * 2^e], the larger one on a tie. *)
Definition hundredths (m : positive) (e : Z) : Z :=
  if (0 <=? e)%Z then (100 * Z.shiftl (Zpos m) e)%Z
  else Z.shiftr (200 * Zpos m + 2 ^ (- e)) (1 - e).

Definition toFixed2 (x : spec_float) : fixed_str :=
  match x with
  | S754_nan => FxNaN
  | S754_infinity s => FxInfinity s
  | S754_zero _ => FxDigits false 0
  | S754_finite s m e => if ge_1e21 m e then FxLarge x else FxDigits s (hundredths m e)
  end.

(* ------------------------------------------------------------------ *)
(** ** Job records *)

Inductive job_status := Pending | Processing | Completed | Failed.

(** [req.body.directoryId || Date.now()]: a string or a number. *)
Inductive dirid := DirStr (s : string) | DirNum (n : Z).

(** [directoryId.toString()] *)
Definition dirid_to_string (d : dirid) : string :=
  match d with DirStr s => s | DirNum n => pretty n end.

(** A job object; [None] is a property that is [undefined]. *)
Record job := mkJob {
  job_id : Z;
  directoryId : dirid;
  pdfPath : string;
  status : job_status;
  progress : spec_float;
  startTime : Z;
  processedPages : nat;
  totalPages : nat;
  currentPage : option nat;
  outputPath : option string;
  endTime : option Z;
  error : option string;
  errors : option (list string);
  compressionRatio : option fixed_str }.

(** Assignments [job.f = v]. *)
Definition set_status v j := mkJob (job_id j) (directoryId j) (pdfPath j) v (progress j) (startTime j) (processedPages j) (totalPages j) (currentPage j) (outputPath j) (endTime j) (error j) (errors j) (compressionRatio j).
Definition set_progress v j := mkJob (job_id j) (directoryId j) (pdfPath j) (status j) v (startTime j) (processedPages j) (totalPages j) (currentPage j) (outputPath j) (endTime j) (error j) (errors j) (compressionRatio j).
Definition set_processedPages v j := mkJob (job_id j) (directoryId j) (pdfPath j) (status j) (progress j) (startTime j) v (totalPages j) (currentPage j) (outputPath j) (endTime j) (error j) (errors j) (compressionRatio j).
Definition set_totalPages v j := mkJob (job_id j) (directoryId j) (pdfPath j) (status j) (progress j) (startTime j) (processedPages j) v (currentPage j) (outputPath j) (endTime j) (error j) (errors j) (compressionRatio j).
Definition set_currentPage v j := mkJob (job_id j) (directoryId j) (pdfPath j) (status j) (progress j) (startTime j) (processedPages j) (totalPages j) v (outputPath j) (endTime j) (error j) (errors j) (compressionRatio j).
Definition set_outputPath v j := mkJob (job_id j) (directoryId j) (pdfPath j) (status j) (progress j) (startTime j) (processedPages j) (totalPages j) (currentPage j) v (endTime j) (error j) (errors j) (compressionRatio j).
Definition set_endTime v j := mkJob (job_id j) (directoryId j) (pdfPath j) (status j) (progress j) (startTime j) (processedPages j) (totalPages j) (currentPage j) (outputPath j) v (error j) (errors j) (compressionRatio j).
Definition set_error v j := mkJob (job_id j) (directoryId j) (pdfPath j) (status j) (progress j) (startTime j) (processedPages j) (totalPages j) (currentPage j) (outputPath j) (endTime j) v (errors j) (compressionRatio j).
Definition set_errors v j := mkJob (job_id j) (directoryId j) (pdfPath j) (status j) (progress j) (startTime j) (processedPages j) (totalPages j) (currentPage j) (outputPath j) (endTime j) (error j) v (compressionRatio j).
Definition set_pdfPath v j := mkJob (job_id j) (directoryId j) v (status j) (progress j) (startTime j) (processedPages j) (totalPages j) (currentPage j) (outputPath j) (endTime j) (error j) (errors j) (compressionRatio j).
Definition set_compressionRatio v j := mkJob (job_id j) (directoryId j) (pdfPath j) (status j) (progress j) (startTime j) (processedPages j) (totalPages j) (currentPage j) (outputPath j) (endTime j) (error j) (errors j) v.

(* ------------------------------------------------------------------ *)
(** ** External collaborators *)

(** The operations configured on a [sharp] instance. *)
Inductive sharp_op :=
| SResize (width height : Z) (fit : string) (withoutEnlargement : bool)
| SSharpen (sigma strength : Q)
| SJpeg (quality : Z) (progressive : bool) (chromaSubsampling : string)
        (trellisQuantisation overshootDeringing optimizeCoding : bool)
| SPng (compressionLevel : Z) (adaptiveFiltering palette : bool) (quality : Z)
| SWebp (quality : Z) (lossless nearLossless smartSubsample : bool) (effort : Z).

(** What pdfjs, the canvas, sharp and the clock answer. *)
Record env := mkEnv {
  (** [sharp(buf)...toBuffer()]: the encoded bytes, or the error thrown *)
  sharp_run : list sharp_op -> bytes -> res bytes;
  (** [pdfjsLib.getDocument({ data }).promise]: [numPages] *)
  get_document : bytes -> res nat;
  (** [pdfDocument.getPage(n)] *)
  get_page : nat -> res unit;
  (** [page.getViewport], [createCanvas], the white [fillRect] *)
  prepare_canvas : nat -> res unit;
  (** [page.render(...).promise] then [canvas.toBuffer(mime)] *)
  render_page : nat -> string -> res bytes;
  (** [page.cleanup()] *)
  page_cleanup : nat -> res unit;
  (** [new Date()] *)
  now : Z }.

Definition lift_res {S A} (r : res A) : ST S A := fun s => (r, s).

(** [str.toLowerCase()] on ASCII. *)
Definition ascii_lower (c : ascii) : ascii :=
  let n := nat_of_ascii c in
  if ((65 <=? n) && (n <=? 90))%nat then ascii_of_nat (n + 32)%nat else c.
Fixpoint to_lower (s : string) : string :=
  match s with
  | EmptyString => EmptyString
  | String c s' => String (ascii_lower c) (to_lower s')
  end.

(* ------------------------------------------------------------------ *)
(** ** [optimizeImage] *)

(** The [sharp] pipeline built from [config.compressionOptions]. *)
Definition sharp_ops (format : string) : list sharp_op :=
  let opts := compressionOptions config in
  (if resize_enabled (co_resize opts) then
     [SResize (resize_maxWidth (co_resize opts)) (resize_maxHeight (co_resize opts))
              (resize_fit (co_resize opts)) true]
   else []) ++
  (if sharpening_enabled (co_sharpening opts) then
     [SSharpen (sharpening_sigma (co_sharpening opts)) (sharpening_strength (co_sharpening opts))]
   else []) ++
  (if String.eqb format "jpeg" then
     let o := co_jpeg opts in
     [SJpeg (jpeg_quality o) (jpeg_progressive o) (jpeg_chromaSubsampling o)
            (jpeg_trellisQuantisation o) (jpeg_overshootDeringing o) (jpeg_optimizeCoding o)]
   else if String.eqb format "png" then
     let o := co_png opts in
     [SPng (png_compressionLevel o) (png_adaptiveFiltering o) (png_palette o) (png_quality o)]
   else if String.eqb format "webp" then
     [SWebp (jpeg_quality (co_jpeg opts)) false false true 5]
   else []).

(** [optimizeImage(imageBuffer, pageNum, totalPages, format)].  The
    compression ratio it computes is only logged. *)
Definition optimizeImage {S} (ev : env) (imageBuffer : bytes) (pageNum totalPages : nat)
    (format : string) : ST S bytes :=
  catch
    (optimizedImageBuffer <-- lift_res (sharp_run ev (sharp_ops format) imageBuffer) ;;
     ret optimizedImageBuffer)
    (fun _ => ret imageBuffer).

(* ------------------------------------------------------------------ *)
(** ** The conversion pipeline

    The state of one run of [convertPDFToImages]: its job record (the
    object [conversionJobs.get(jobId)]), the file system, the log of
    external operations, the snapshots of the job taken at each [await],
    and the function's locals [totalOriginalSize] and
    [totalCompressedSize] (kept in the state because the per-page [catch]
    keeps their updates).  While the run is suspended at its [n]-th
    [await], the other handlers and pipelines may change the file system:
    [p_others n] is that change. *)
Record pstate := mkP {
  p_job : job;
  p_fs : fsys;
  p_log : list event;
  p_obs : list job;
  p_orig : nat;
  p_comp : nat;
  p_others : nat -> fsys -> fsys }.

Definition PM := ST pstate.

Definition snapshot : PM unit :=
  fun s => (Ok tt, mkP (p_job s) (p_others s (length (p_obs s)) (p_fs s)) (p_log s)
                       (p_obs s ++ [p_job s]) (p_orig s) (p_comp s) (p_others s)).

Definition modify_job (f : job -> job) : PM unit :=
  fun s => (Ok tt, mkP (f (p_job s)) (p_fs s) (p_log s) (p_obs s) (p_orig s) (p_comp s) (p_others s)).

Definition set_sizes (o c : nat) : PM unit :=
  fun s => (Ok tt, mkP (p_job s) (p_fs s) (p_log s) (p_obs s) o c (p_others s)).

Definition get_sizes : PM (nat * nat) := fun s => (Ok (p_orig s, p_comp s), s).

(** [totalOriginalSize += k] *)
Definition add_orig (k : nat) : PM unit :=
  fun s => (Ok tt, mkP (p_job s) (p_fs s) (p_log s) (p_obs s) (p_orig s + k) (p_comp s) (p_others s)).
(** [totalCompressedSize += k] *)
Definition add_comp (k : nat) : PM unit :=
  fun s => (Ok tt, mkP (p_job s) (p_fs s) (p_log s) (p_obs s) (p_orig s) (p_comp s + k) (p_others s)).

Definition lift_fs {A} (c : FM A) : PM A :=
  fun s => let '(r, (f, l)) := c (p_fs s, p_log s) in
           (r, mkP (p_job s) f l (p_obs s) (p_orig s) (p_comp s) (p_others s)).

(** [await] of a file-system operation. *)
Definition await_fs {A} (c : FM A) : PM A := snapshot ;;; lift_fs c.

(** [await] of an external promise settling with [r]. *)
Definition await_ext {A} (e : event) (r : res A) : PM A :=
  snapshot ;;; lift_fs (log_ev e) ;;; lift_res r.

Definition not_found_msg (pdfPath : string) : string :=
  "PDF file not found at path: " +:+ pdfPath.

Definition page_error_msg (pageNum : nat) (m : string) : string :=
  "Error on page " +:+ pretty pageNum +:+ ": " +:+ m.

(** [`image/${format === 'webp' ? 'png' : format}`] *)
Definition raw_mime (format : string) : string :=
  "image/" +:+ (if String.eqb format "webp" then "png" else format).

(** [job.processedPages++; job.progress = Math.floor(...)] *)
Definition count_page (totalPages : nat) (j : job) : job :=
  let p := S (processedPages j) in
  set_progress (js_floor (js_mul (js_div (js_of_nat p) (js_of_nat totalPages)) (js_of_Z 100)))
               (set_processedPages p j).

(** [job.errors = job.errors || []; job.errors.push(msg)] *)
Definition push_error (msg : string) (j : job) : job :=
  set_errors (Some (default [] (errors j) ++ [msg])) j.

(** One iteration of the page loop. *)
Definition convert_page (ev : env) (pdfOutputDir : path) (totalPages : nat)
    (pageNum : nat) : PM unit :=
  modify_job (set_currentPage (Some pageNum)) ;;;
  await_ext (EvGetPage pageNum) (get_page ev pageNum) ;;;
  lift_res (prepare_canvas ev pageNum) ;;;
  catch
    (let format := to_lower (imageFormat config) in
     rawImageData <-- await_ext (EvRender pageNum) (render_page ev pageNum (raw_mime format)) ;;
     add_orig (length rawImageData) ;;;
     optimizedImageData <-- (snapshot ;;; optimizeImage ev rawImageData pageNum totalPages format) ;;
     add_comp (length optimizedImageData) ;;;
     let imagePath := path_join pdfOutputDir (pretty pageNum +:+ "." +:+ format) in
     await_fs (fs_writeFile imagePath optimizedImageData) ;;;
     modify_job (count_page totalPages) ;;;
     lift_res (page_cleanup ev pageNum))
    (fun m => modify_job (push_error (page_error_msg pageNum m))).

(** The completion block: status, outputPath, endTime, progress, ratio. *)
Definition complete_job (outPath : string) (t : Z) (ratio : fixed_str) (j : job) : job :=
  set_compressionRatio (Some ratio)
    (set_progress (js_of_Z 100)
       (set_endTime (Some t) (set_outputPath (Some outPath) (set_status Completed j)))).

(** The outer [catch] block. *)
Definition fail_job (m : string) (t : Z) (j : job) : job :=
  set_endTime (Some t) (set_error (Some m) (set_status Failed j)).

(** The body of the outer [try] after the document is opened. *)
Definition convert_pages (ev : env) (directoryId : dirid) (totalPages : nat) : PM string :=
  let pdfOutputDir := path_join (outputDir config) (dirid_to_string directoryId) in
  await_fs (fs_mkdir_recursive pdfOutputDir) ;;;
  set_sizes 0 0 ;;;
  for_each (seq 1 totalPages) (convert_page ev pdfOutputDir totalPages) ;;;
  sizes <-- get_sizes ;;
  let '(totalOriginalSize, totalCompressedSize) := sizes in
  let overallRatio := toFixed2 (js_div (js_of_nat totalOriginalSize) (js_of_nat totalCompressedSize)) in
  let absoluteOutputPath := path_str pdfOutputDir in
  modify_job (complete_job absoluteOutputPath (now ev) overallRatio) ;;;
  ret absoluteOutputPath.

(** The body of the outer [try] up to opening the document: its result
    is [numPages]. *)
Definition convert_open (ev : env) (pdfPath : string) (directoryId : dirid) : PM nat :=
  modify_job (set_status Processing) ;;;
  await_fs (cleanDirectoryImages (dirid_to_string directoryId)) ;;;
  catch (await_fs (fs_access (to_path pdfPath)))
    (fun _ => modify_job (fun j => set_error (Some (not_found_msg pdfPath)) (set_status Failed j)) ;;;
              throw (not_found_msg pdfPath)) ;;;
  data <-- await_fs (fs_readFile (to_path pdfPath)) ;;
  totalPages <-- await_ext EvGetDocument (get_document ev data) ;;
  modify_job (fun j => set_processedPages 0 (set_totalPages totalPages j)) ;;;
  ret totalPages.

(** [convertPDFToImages(pdfPath, directoryId, jobId)] *)
Definition convertPDFToImages (ev : env) (pdfPath : string) (directoryId : dirid) : PM string :=
  catch
    (totalPages <-- convert_open ev pdfPath directoryId ;;
     convert_pages ev directoryId totalPages)
    (fun m => modify_job (fail_job m (now ev)) ;;; throw m).

(** A run of the pipeline on job [j] from file system [f], the others
    changing the file system by [others] at its awaits. *)
Definition run_pipeline (ev : env) (f : fsys) (others : nat -> fsys -> fsys) (j : job)
    : res string * pstate :=
  convertPDFToImages ev (pdfPath j) (directoryId j) (mkP j f [] [] 0 0 others).

(** The successive values of the job seen by other handlers: at every
    [await], and the final one. *)
Definition pipeline_trace (ev : env) (f : fsys) (others : nat -> fsys -> fsys) (j : job)
    : list job :=
  let s := snd (run_pipeline ev f others j) in p_obs s ++ [p_job s].

(* ------------------------------------------------------------------ *)
(** ** The job tracker and the HTTP routes *)

(** [conversionJobs] and [jobCounter]. *)
Record tracker := mkTracker {
  conversionJobs : gmap Z job;
  jobCounter : Z }.

(** The object [jobResponse] built by [GET /api/jobs/:jobId]. *)
Record job_response := mkJobResponse {
  r_id : Z;
  r_directoryId : dirid;
  r_status : job_status;
  r_progress : spec_float;
  r_processedPages : nat;
  r_totalPages : nat;
  r_outputPath : option string;
  r_startTime : Z;
  r_endTime : option Z;
  r_error : option string;
  r_errors : option (list string);
  r_compressionRatio : option fixed_str }.

Inductive body :=
| BMessage (message : string)
| BError (error : string)
| BUploaded (message : string) (jobId : Z) (directoryId : dirid)
| BJob (r : job_response).

Record response := mkResp { code : Z; resp_body : body }.

(** [parseInt(s)] (no radix): leading white space, a sign, an optional
    [0x] prefix, then the longest run of digits, whose value is rounded to
    the nearest double.  The string is read as UTF-8.  The result is the
    integer that double holds; [None] is [NaN], or an infinity when the
    digits exceed the largest double: neither is a key of a [Map] of
    integer ids.  [-0] is [0], as for [Map] keys. *)
(** The integer held by a double that is zero or an integer, as the
    rounding of an integer is. *)
Definition js_int (x : spec_float) : option Z :=
  match x with
  | S754_zero _ => Some 0%Z
  | S754_finite sgn m e => Some (if sgn then (- Z.shiftl (Zpos m) e)%Z else Z.shiftl (Zpos m) e)
  | _ => None
  end.

Definition is_js_space (c : ascii) : bool :=
  let n := nat_of_ascii c in
  (Nat.eqb n 32 || ((9 <=? n) && (n <=? 13)))%nat.

(** The white space outside ASCII, as its UTF-8 bytes: U+00A0 is two
    bytes, and the three-byte ones are U+1680, U+2000 to U+200A, U+2028,
    U+2029, U+202F, U+205F, U+3000 and U+FEFF. *)
Definition is_js_space2 (c1 c2 : ascii) : bool :=
  (Nat.eqb (nat_of_ascii c1) 194 && Nat.eqb (nat_of_ascii c2) 160)%nat.

Definition is_js_space3 (c1 c2 c3 : ascii) : bool :=
  let a := nat_of_ascii c1 in let b := nat_of_ascii c2 in let d := nat_of_ascii c3 in
  (Nat.eqb a 225 && Nat.eqb b 154 && Nat.eqb d 128 ||
   Nat.eqb a 226 && Nat.eqb b 128 &&
     ((128 <=? d) && (d <=? 138) || Nat.eqb d 168 || Nat.eqb d 169 || Nat.eqb d 175) ||
   Nat.eqb a 226 && Nat.eqb b 129 && Nat.eqb d 159 ||
   Nat.eqb a 227 && Nat.eqb b 128 && Nat.eqb d 128 ||
   Nat.eqb a 239 && Nat.eqb b 187 && Nat.eqb d 191)%nat.

Fixpoint skip_space (s : string) : string :=
  match s with
  | String c s' =>
      if is_js_space c then skip_space s' else
      match s' with
      | String c2 s2 =>
          if is_js_space2 c c2 then skip_space s2 else
          match s2 with
          | String c3 s3 => if is_js_space3 c c2 c3 then skip_space s3 else s
          | EmptyString => s
          end
      | EmptyString => s
      end
  | EmptyString => EmptyString
  end.

Definition digit_val (c : ascii) : option Z :=
  let n := nat_of_ascii c in
  if ((48 <=? n) && (n <=? 57))%nat then Some (Z.of_nat n - 48)%Z
  else if ((97 <=? n) && (n <=? 122))%nat then Some (Z.of_nat n - 87)%Z
  else if ((65 <=? n) && (n <=? 90))%nat then Some (Z.of_nat n - 55)%Z
  else None.

Fixpoint digits_acc (radix : Z) (s : string) (acc : option Z) : option Z :=
  match s with
  | String c s' =>
      match digit_val c with
      | Some d => if (d <? radix)%Z then digits_acc radix s' (Some (default 0 acc * radix + d)%Z)
                  else acc
      | None => acc
      end
  | EmptyString => acc
  end.

Definition parseInt (s : string) : option Z :=
  let s1 := skip_space s in
  let '(sign, s2) :=
    match s1 with
    | String "-" s' => ((-1)%Z, s')
    | String "+" s' => (1%Z, s')
    | _ => (1%Z, s1)
    end in
  let '(radix, s3) :=
    match s2 with
    | String "0" (String c s') =>
        if Ascii.eqb c "x" || Ascii.eqb c "X" then (16%Z, s') else (10%Z, s2)
    | _ => (10%Z, s2)
    end in
  match digits_acc radix s3 None with
  | Some mathInt => js_int (js_of_Z (sign * mathInt))
  | None => None
  end.

(** The fields copied into [jobResponse]. *)
Definition job_public (j : job) : job_response := {|
  r_id := job_id j;
  r_directoryId := directoryId j;
  r_status := status j;
  r_progress := progress j;
  r_processedPages := processedPages j;
  r_totalPages := totalPages j;
  r_outputPath := outputPath j;
  r_startTime := startTime j;
  r_endTime := endTime j;
  r_error := error j;
  r_errors := errors j;
  r_compressionRatio := compressionRatio j |}.

(** [GET /api/jobs/:jobId]; [Map.get(NaN)] is [undefined]. *)
Definition get_job_status (jobIdParam : string) : ST tracker response :=
  fun t =>
    let found := match parseInt jobIdParam with
                 | Some k => conversionJobs t !! k
                 | None => None
                 end in
    match found with
    | None => (Ok (mkResp 404 (BError "Job not found")), t)
    | Some j => (Ok (mkResp 200 (BJob (job_public j))), t)
    end.

(** [POST /api/maintenance/cleanup] *)
Definition maintenance_cleanup : FM response :=
  catch
    (cleanupDirectories ;;;
     ret (mkResp 200 (BMessage "All temporary directories cleaned successfully")))
    (fun m => ret (mkResp 500 (BError m))).

(** The parts of an upload request the handler reads: [req.file.path],
    [req.body.directoryId], and the two clock reads, [Date.now()] for a
    missing directory id and [new Date()] for [startTime] (in ms). *)
Record upload_req := mkUploadReq {
  req_file : option string;
  req_directoryId : option string;
  req_now : Z;
  req_startTime : Z }.

(** [POST /api/upload].  [ensure] is the outcome of
    [await ensureDirectoriesExist()].  Besides the response, the result
    is the id of the job whose pipeline [setImmediate] schedules. *)
Definition upload_handler (ensure : res unit) (req : upload_req)
    : ST tracker (response * option Z) :=
  catch
    (lift_res ensure ;;;
     match req_file req with
     | None => ret (mkResp 400 (BError "No PDF file uploaded"), None)
     | Some pdfPath =>
         let directoryId :=
           match req_directoryId req with
           | Some d => if String.eqb d "" then DirNum (req_now req) else DirStr d
           | None => DirNum (req_now req)
           end in
         fun t =>
           let jobId := (jobCounter t + 1)%Z in
           let job := mkJob jobId directoryId pdfPath Pending (js_of_Z 0) (req_startTime req)
                            0 0 None None None None None None in
           (Ok (mkResp 200 (BUploaded "PDF uploaded successfully, conversion started"
                              jobId directoryId), Some jobId),
            mkTracker (<[jobId := job]> (conversionJobs t)) jobId)
     end)
    (fun m => ret (mkResp 500 (BError m), None)).

(** The whole service: the tracker, and for each running pipeline the
    values its job record will still take.  A pipeline's run is fixed when
    it is scheduled, for any answers of its collaborators and any file
    system; the pipelines of distinct jobs only share the file system,
    which is left unconstrained. *)
Record world := mkWorld {
  w_tracker : tracker;
  w_running : gmap Z (list job) }.

Definition world_init : world := mkWorld (mkTracker ∅ 0) ∅.

Inductive step : world -> world -> Prop :=
| StepUpload w ensure req resp t' :
    upload_handler ensure req (w_tracker w) = (Ok (resp, None), t') ->
    step w (mkWorld t' (w_running w))
| StepUploadRun w ensure req resp k j t' ev f others :
    upload_handler ensure req (w_tracker w) = (Ok (resp, Some k), t') ->
    conversionJobs t' !! k = Some j ->
    step w (mkWorld t' (<[k := pipeline_trace ev f others j]> (w_running w)))
| StepPipeline w k j js :
    w_running w !! k = Some (j :: js) ->
    step w (mkWorld (mkTracker (<[k := j]> (conversionJobs (w_tracker w)))
                               (jobCounter (w_tracker w)))
                    (<[k := js]> (w_running w)))
| StepGet w param resp t' :
    get_job_status param (w_tracker w) = (Ok resp, t') ->
    step w (mkWorld t' (w_running w)).

Definition reachable (w : world) : Prop := rtc step world_init w.

(** [ensureDirectoriesExist()]: the [catch] logs and rethrows. *)
Definition ensureDirectoriesExist : FM unit :=
  catch
    (fs_mkdir_recursive (inputDir config) ;;;
     fs_mkdir_recursive (outputDir config))
    (fun m => throw m).

(** The [app.listen] callback; [process.exit(1)] is the thrown error. *)
Definition startup : FM unit :=
  catch
    (ensureDirectoriesExist ;;;
     cleanupDirectories)
    (fun m => throw m).

(** The body of [GET /api/health]. *)
Record health_body := mkHealth {
  h_status : string;
  h_version : string;
  h_activeJobs : nat;
  h_uptime : spec_float }.

(** [GET /api/health]; [uptime] is [process.uptime()]. *)
Definition health_check (uptime : spec_float) : ST tracker (Z * health_body) :=
  fun t => (Ok (200%Z, mkHealth "ok" "1.0.0" (size (conversionJobs t)) uptime), t).

(* ================================================================== *)
(** * Specification-side definitions *)

(** A file system whose input directory holds one read-only PDF. *)
Definition fs_locked_pdf : fsys :=
  mkFs {[ inputDir config ++ ["a.pdf"] := [Byte.x25] ]}
       (list_to_set (path_prefixes (inputDir config)))
       {[ inputDir config ++ ["a.pdf"] ]}.

(** ** Observations of a job along a pipeline run

    [chain R l]: every two successive values in [l] are related by [R].
    [runs R P c Q]: from a job satisfying [P], the fragment [c] only
    appends snapshots, the start value, the snapshots and the end value
    form an [R]-chain, and the result and end value satisfy [Q]. *)

Fixpoint chain (R : job -> job -> Prop) (l : list job) : Prop :=
  match l with
  | x :: ((y :: _) as l') => R x y /\ chain R l'
  | _ => True
  end.

Definition runs {A} (R : job -> job -> Prop) (P : job -> Prop) (c : PM A)
    (Q : res A -> job -> Prop) : Prop :=
  forall s r s', c s = (r, s') -> P (p_job s) ->
    exists l, p_obs s' = p_obs s ++ l /\ chain R (p_job s :: l ++ [p_job s']) /\ Q r (p_job s').

(** ** The job invariant along a pipeline run *)

(** The forward order of statuses: pending, then processing, then
    completed or failed. *)
Definition status_le (a b : job_status) : Prop :=
  a = b \/ (a = Pending /\ b <> Pending) \/ (a = Processing /\ (b = Completed \/ b = Failed)).

Definition job_inv (j : job) : Prop :=
  (processedPages j <= totalPages j)%nat /\ (is_Some (outputPath j) <-> status j = Completed).

(** How a job may change between two observations. *)
Definition job_step (j j' : job) : Prop :=
  job_inv j /\ job_inv j' /\ status_le (status j) (status j') /\
  (processedPages j <= processedPages j')%nat /\
  (totalPages j = 0%nat \/ totalPages j' = totalPages j).

(** The record [POST /api/upload] creates. *)
Definition fresh_job (j : job) : Prop :=
  status j = Pending /\ processedPages j = 0%nat /\ totalPages j = 0%nat /\ outputPath j = None.

Definition okthen {A} (P T : job -> Prop) : res A -> job -> Prop :=
  fun r j => match r with Ok _ => P j | Throw _ => T j end.

(** The job while its pipeline runs, and when an exception is raised. *)
Definition loop_inv (rest : list nat) (j : job) : Prop :=
  status j = Processing /\ outputPath j = None /\
  (processedPages j + length rest <= totalPages j)%nat.

Definition fail_inv (j : job) : Prop :=
  (status j = Processing \/ status j = Failed) /\ outputPath j = None /\ job_inv j.

Definition opened (n : nat) (j : job) : Prop :=
  status j = Processing /\ outputPath j = None /\ processedPages j = 0%nat /\ totalPages j = n.

Definition final_inv {A} (r : res A) (j : job) : Prop :=
  job_inv j /\ match r with Ok _ => status j = Completed | Throw _ => status j = Failed end.

(** ** The service *)

Definition winv (w : world) : Prop :=
  (0 <= jobCounter (w_tracker w))%Z /\
  (forall k j, conversionJobs (w_tracker w) !! k = Some j ->
     (0 < k <= jobCounter (w_tracker w))%Z /\ job_inv j) /\
  (forall k js, w_running w !! k = Some js ->
     exists j, conversionJobs (w_tracker w) !! k = Some j /\ chain job_step (j :: js)).

(** How one step of the service changes the records. *)
Definition records_step (w w' : world) : Prop :=
  (forall k j, conversionJobs (w_tracker w) !! k = Some j ->
     exists j', conversionJobs (w_tracker w') !! k = Some j' /\ job_step j j') /\
  (forall k j', conversionJobs (w_tracker w) !! k = None ->
     conversionJobs (w_tracker w') !! k = Some j' -> fresh_job j').

Definition page_events (l : list event) : list nat :=
  omap (fun e => match e with EvGetPage n => Some n | _ => None end) l.

Definition page_writes (l : list event) : list (path * bytes) :=
  omap (fun e => match e with EvWriteFile p b => Some (p, b) | _ => None end) l.

Definition quiet (L : list event) : Prop := page_events L = [] /\ page_writes L = [].

Definition fm_quiet {A} (c : FM A) : Prop :=
  forall f l r f' l', c (f, l) = (r, (f', l')) -> exists L, l' = l ++ L /\ quiet L.

Ltac prim_quiet :=
  intros f l r f' l' E; cbv [bind log_ev] in E; simpl in E;
  repeat case_match; simplify_eq; eexists; (split; [reflexivity | split; reflexivity]).

Definition page_file (pdfOutputDir : path) (pageNum : nat) : path :=
  path_join pdfOutputDir (pretty pageNum +:+ "." +:+ to_lower (imageFormat config)).

(** What is written for page [n]: its rendering, optimized. *)
Definition page_written (ev : env) (pdfOutputDir : path) (totalPages n : nat) (w : path * bytes) : Prop :=
  fst w = page_file pdfOutputDir n /\
  exists raw, render_page ev n (raw_mime (to_lower (imageFormat config))) = Ok raw /\
    optimizeImage (S := unit) ev raw n totalPages (to_lower (imageFormat config)) tt = (Ok (snd w), tt).

(** The job at the end of a completed [convert_pages]. *)
Definition completed_as (ev : env) (a : string) (s' : pstate) : Prop :=
  exists j0, p_job s' = complete_job a (now ev)
    (toFixed2 (js_div (js_of_nat (p_orig s')) (js_of_nat (p_comp s')))) j0.

Definition render_fails (ev : env) : Prop :=
  forall x, exists m, render_page ev x (raw_mime (to_lower (imageFormat config))) = Throw m.

Definition seg_okb (s : string) : bool :=
  negb (String.eqb s "") && negb (String.eqb s ".") && negb (String.eqb s "..") &&
  negb (existsb (fun c => Ascii.eqb c "/") (list_ascii_of_string s)).

Definition fs_entries (f : fsys) : list path :=
  elements (dom (fs_files f)) ++ elements (fs_dirs f).

Definition fs_wfb (f : fsys) : bool :=
  forallb (fun q => forallb seg_okb q) (fs_entries f) &&
  forallb (fun q => bool_decide (removelast q = []) || bool_decide (removelast q ∈ fs_dirs f))
          (fs_entries f) &&
  forallb (fun q => negb (bool_decide (q ∈ fs_dirs f))) (elements (dom (fs_files f))) &&
  bool_decide ([] ∈ fs_dirs f).

Definition demo_pdf : string := "/srv/pdf-to-image/pdfs/a.pdf".

Definition fs_demo : fsys :=
  mkFs {[ inputDir config ++ ["a.pdf"] := [Byte.x25] ]}
       (list_to_set ([] :: path_prefixes (inputDir config) ++ path_prefixes (outputDir config)))
       ∅.

Definition ev_fail : env := {|
  sharp_run := fun _ b => Ok b;
  get_document := fun _ => Ok 2%nat;
  get_page := fun _ => Ok tt;
  prepare_canvas := fun _ => Ok tt;
  render_page := fun _ _ => Throw "render failed";
  page_cleanup := fun _ => Ok tt;
  now := 9%Z |}.

Definition no_others : nat -> fsys -> fsys := fun _ f => f.

Definition req_demo : upload_req := mkUploadReq (Some demo_pdf) (Some "42") 4%Z 5%Z.

Definition job_demo : job :=
  mkJob 1 (DirStr "42") demo_pdf Pending (js_of_Z 0) 5 0 0 None None None None None None.

Definition world_demo : world :=
  mkWorld (snd (upload_handler (Ok tt) req_demo (w_tracker world_init)))
          (<[1%Z := pipeline_trace ev_fail fs_demo no_others job_demo]> ∅).

Definition s_demo : pstate := mkP job_demo fs_demo [] [] 0 0 no_others.

(** The prefixes of [p] that are files of [f]. *)
Definition no_file_prefix (f : fsys) (p : path) : Prop :=
  Forall (fun q => q ∉ dom (fs_files f)) (path_prefixes p).

Definition mkdir_fs (p : path) (f : fsys) : fsys :=
  mkFs (fs_files f) (list_to_set (path_prefixes p) ∪ fs_dirs f) (fs_readonly f).

(** The ids of the records are [1 .. jobCounter]. *)
Definition jobs_dense (w : world) : Prop :=
  (forall k, is_Some (conversionJobs (w_tracker w) !! k) <-> (0 < k <= jobCounter (w_tracker w))%Z) /\
  size (conversionJobs (w_tracker w)) = Z.to_nat (jobCounter (w_tracker w)).

(** Two values of a job record with the same id, directory id, PDF path
    and start time. *)
Definition same_ident (a b : job) : Prop :=
  job_id a = job_id b /\ directoryId a = directoryId b /\
  pdfPath a = pdfPath b /\ startTime a = startTime b.

Definition keeps_ident {A} (c : PM A) : Prop :=
  runs same_ident (fun _ => True) c (fun _ _ => True).

(** A job whose directory id climbs back from the output directory into
    the input directory. *)
Definition job_trav : job :=
  mkJob 1 (DirStr "../pdfs") demo_pdf Pending (js_of_Z 0) 5 0 0 None None None None None None.

(** A file system with a file where the data directory should be. *)
Definition fs_blocked : fsys := mkFs {[ ["srv"] := [] ]} {[ [] ]} ∅.

(** How [totalPages] may change between two values of a record along a
    run under [ev]: it stays, or it leaves 0 for a page count the
    document loader returns. *)
Definition tp_step (ev : env) (a b : job) : Prop :=
  totalPages b = totalPages a \/
  (totalPages a = 0%nat /\ exists data, get_document ev data = Ok (totalPages b)).

(** The step [StepPipeline] of job [k], when it has a value left to publish. *)
Definition pipeline_step (w : world) (k : Z) : world :=
  match w_running w !! k with
  | Some (j :: js) =>
      mkWorld (mkTracker (<[k := j]> (conversionJobs (w_tracker w))) (jobCounter (w_tracker w)))
              (<[k := js]> (w_running w))
  | _ => w
  end.

Fixpoint pipeline_steps (n : nat) (w : world) (k : Z) : world :=
  match n with
  | O => w
  | S n' => pipeline_steps n' (pipeline_step w k) k
  end.

(** Collaborators under which every page renders and is optimized. *)
Definition ev_ok : env := {|
  sharp_run := fun _ b => Ok b;
  get_document := fun _ => Ok 2%nat;
  get_page := fun _ => Ok tt;
  prepare_canvas := fun _ => Ok tt;
  render_page := fun _ _ => Ok [Byte.x01; Byte.x02];
  page_cleanup := fun _ => Ok tt;
  now := 9%Z |}.

(** The demo upload, its pipeline running under [ev_ok]. *)
Definition world_ok : world :=
  mkWorld (snd (upload_handler (Ok tt) req_demo (w_tracker world_init)))
          (<[1%Z := pipeline_trace ev_ok fs_demo no_others job_demo]> ∅).

(** A second upload, with no directory id. *)
Definition req_second : upload_req := mkUploadReq (Some demo_pdf) None 20%Z 21%Z.

(** The demo world once its pipeline has published all its values. *)
Definition world_done : world := pipeline_steps 10 world_demo 1.

(** [world_done] after a second upload, whose pipeline is scheduled. *)
Definition world_late : world :=
  let t' := snd (upload_handler (Ok tt) req_second (w_tracker world_done)) in
  mkWorld t' (<[2%Z := pipeline_trace ev_fail fs_demo no_others
                         (default job_demo (conversionJobs t' !! 2%Z))]> (w_running world_done)).

(** [world_ok] after one page, and at the end of its run. *)
Definition world_ok_mid : world := pipeline_steps 10 world_ok 1.
Definition world_ok_end : world := pipeline_steps 4 world_ok_mid 1.

(** The record of job 1 in [w]. *)
Definition record1 (w : world) : job := default job_demo (conversionJobs (w_tracker w) !! 1%Z).

(* ================================================================== *)
(** * Properties *)

(** ** Small computations on concrete inputs *)

Example parseInt_decimal : parseInt "  42abc" = Some 42%Z.
Proof. reflexivity. Qed.

Example parseInt_hex : parseInt "0x1f" = Some 31%Z.
Proof. reflexivity. Qed.

Example parseInt_nan : parseInt "abc" = None.
Proof. reflexivity. Qed.

Example parseInt_rounds : parseInt "9007199254740993" = Some 9007199254740992%Z.
Proof. vm_compute. reflexivity. Qed.

Example parseInt_nbsp : parseInt (String (ascii_of_nat 194) (String (ascii_of_nat 160) "7")) = Some 7%Z.
Proof. vm_compute. reflexivity. Qed.

Example toFixed2_third : toFixed2 (js_div (js_of_Z 2) (js_of_Z 3)) = FxDigits false 67.
Proof. reflexivity. Qed.

Example toFixed2_zero_by_zero : toFixed2 (js_div (js_of_Z 0) (js_of_Z 0)) = FxNaN.
Proof. reflexivity. Qed.

Example progress_float_floor :
  js_floor (js_mul (js_div (js_of_Z 29) (js_of_Z 100)) (js_of_Z 100)) = js_of_Z 28.
Proof. reflexivity. Qed.

Example get_job_status_found :
  fst (get_job_status "1" (mkTracker {[1%Z := mkJob 1 (DirStr "42") "/srv/a.pdf" Pending
        (js_of_Z 0) 5 0 0 None None None None None None]} 1)) =
  Ok (mkResp 200 (BJob (mkJobResponse 1 (DirStr "42") Pending (js_of_Z 0) 0 0 None 5
        None None None None))).
Proof. reflexivity. Qed.

(** ** Paths and directory listings *)

Lemma str_app_assoc (a b c : string) : (a +:+ b) +:+ c = a +:+ (b +:+ c).
Proof. induction a as [|x a IH]; [reflexivity | exact (f_equal (String x) IH)]. Qed.

Lemma split_slash_aux_noslash (cur s : string) :
  ~ In "/"%char (list_ascii_of_string s) -> split_slash_aux cur s = [cur +:+ s].
Proof.
  revert cur. induction s as [|c s IH]; intros cur Hs; simpl.
  - f_equal. induction cur as [|x cur IHc]; [reflexivity | exact (f_equal (String x) IHc)].
  - simpl in Hs.
    destruct (Ascii.eqb_spec c "/") as [->|Hc]; [tauto|].
    rewrite IH by tauto. now rewrite str_app_assoc.
Qed.

Lemma path_join_seg (p : path) (n : string) : seg_ok n -> path_join p n = p ++ [n].
Proof.
  intros (H1 & H2 & H3 & H4). unfold path_join, split_slash.
  rewrite split_slash_aux_noslash by exact H4. simpl.
  change ("" +:+ n) with n.
  apply String.eqb_neq in H1, H2, H3. rewrite H1, H2, H3. simpl.
  rewrite rev_involutive. reflexivity.
Qed.

Lemma child_name_spec (p q : path) (n : string) :
  child_name p q = Some n <-> q = p ++ [n].
Proof.
  unfold child_name. split.
  - destruct (bool_decide (length q = S (length p))) eqn:E1; [|discriminate].
    destruct (bool_decide (take (length p) q = p)) eqn:E2; [|discriminate].
    apply bool_decide_eq_true in E1, E2. simpl. intros Hl.
    rewrite <- (take_drop (length p) q) in Hl |- *. rewrite E2 in Hl |- *.
    assert (Hd : length (drop (length p) q) = 1%nat) by (rewrite length_drop; lia).
    destruct (drop (length p) q) as [|y [|z r]]; simpl in Hd; try lia.
    rewrite last_snoc in Hl. congruence.
  - intros ->. rewrite bool_decide_true by (rewrite length_app; simpl; lia).
    rewrite bool_decide_true by apply take_app_length. apply last_snoc.
Qed.

Lemma dir_entries_spec (f : fsys) (p : path) (n : string) :
  n ∈ dir_entries f p <-> (p ++ [n]) ∈ dom (fs_files f) \/ (p ++ [n]) ∈ fs_dirs f.
Proof.
  unfold dir_entries. rewrite elem_of_remove_dups, list_elem_of_omap. split.
  - intros (q & Hq & Hc). apply child_name_spec in Hc. subst q.
    apply elem_of_app in Hq as [Hq|Hq]; apply elem_of_elements in Hq; auto.
  - intros Hn. exists (p ++ [n]). split; [|apply child_name_spec; reflexivity].
    apply elem_of_app. destruct Hn; [left|right]; apply elem_of_elements; assumption.
Qed.

Lemma dir_entries_NoDup (f : fsys) (p : path) : NoDup (dir_entries f p).
Proof. apply NoDup_remove_dups. Qed.

(** ** Deleting files *)

Lemma fs_unlink_frame (p : path) (f : fsys) (l : list event) r f' l' :
  fs_unlink p (f, l) = (r, (f', l')) ->
  fs_dirs f' = fs_dirs f /\ fs_readonly f' = fs_readonly f /\
  (forall q, q <> p -> fs_files f' !! q = fs_files f !! q).
Proof.
  unfold fs_unlink, bind, log_ev. simpl.
  destruct (bool_decide (p ∈ fs_dirs f)); [intros [= <- <- <-]; auto|].
  destruct (bool_decide (p ∈ fs_readonly f)); [intros [= <- <- <-]; auto|].
  destruct (fs_files f !! p); intros [= <- <- <-]; simpl; auto.
  repeat split; intros q Hq. apply lookup_delete_ne. congruence.
Qed.

Lemma fs_unlink_ok (p : path) (f : fsys) (l : list event) :
  p ∈ dom (fs_files f) -> p ∉ fs_dirs f -> p ∉ fs_readonly f ->
  fs_unlink p (f, l) =
    (Ok tt, (mkFs (delete p (fs_files f)) (fs_dirs f) (fs_readonly f), l ++ [EvUnlink p])).
Proof.
  intros Hf Hd Hr. unfold fs_unlink, bind, log_ev. simpl.
  rewrite bool_decide_false by exact Hd. rewrite bool_decide_false by exact Hr.
  apply elem_of_dom in Hf as [b Hb]. rewrite Hb. reflexivity.
Qed.

Lemma for_each_unlink_frame (g : string -> path) (ns : list string) (f : fsys)
    (l : list event) r f' l' :
  for_each ns (fun n => fs_unlink (g n)) (f, l) = (r, (f', l')) ->
  fs_dirs f' = fs_dirs f /\ fs_readonly f' = fs_readonly f /\
  (forall q, (forall n, n ∈ ns -> q <> g n) -> fs_files f' !! q = fs_files f !! q).
Proof.
  revert f l. induction ns as [|a ns IH]; intros f l; simpl.
  - unfold ret. intros [= <- <- <-]. auto.
  - unfold bind. destruct (fs_unlink (g a) (f, l)) as [[u|m] [f1 l1]] eqn:E;
      apply fs_unlink_frame in E as (E1 & E2 & E3).
    + intros Hrun. apply IH in Hrun as (F1 & F2 & F3).
      repeat split; [congruence | congruence |].
      intros q Hq. rewrite F3, E3; [reflexivity| |].
      * apply Hq. left.
      * intros n Hn. apply Hq. right. exact Hn.
    + intros [= <- <- <-]. repeat split; try assumption.
      intros q Hq. apply E3, Hq. left.
Qed.

Lemma for_each_unlink_all (g : string -> path) (ns : list string) (f : fsys) (l : list event) :
  NoDup ns ->
  (forall n1 n2, n1 ∈ ns -> n2 ∈ ns -> g n1 = g n2 -> n1 = n2) ->
  (forall n, n ∈ ns -> g n ∈ dom (fs_files f) /\ (g n ∉ fs_dirs f) /\ (g n ∉ fs_readonly f)) ->
  exists f' l', for_each ns (fun n => fs_unlink (g n)) (f, l) = (Ok tt, (f', l')) /\
    forall n, n ∈ ns -> fs_files f' !! g n = None.
Proof.
  revert f l. induction ns as [|a ns IH]; intros f l Hnd Hinj Hok; simpl.
  - exists f, l. split; [reflexivity|]. intros n Hn. inversion Hn.
  - apply NoDup_cons in Hnd as [Hna Hnd].
    destruct (Hok a ltac:(left)) as (Ha1 & Ha2 & Ha3).
    unfold bind. rewrite fs_unlink_ok by assumption.
    destruct (IH (mkFs (delete (g a) (fs_files f)) (fs_dirs f) (fs_readonly f))
                 (l ++ [EvUnlink (g a)])) as (f' & l' & Hrun & Hgone).
    + exact Hnd.
    + intros n1 n2 H1 H2. apply Hinj; right; assumption.
    + intros n Hn. destruct (Hok n ltac:(right; exact Hn)) as (Hn1 & Hn2 & Hn3).
      simpl. split; [|split; assumption].
      rewrite dom_delete_L. apply elem_of_difference. split; [exact Hn1|].
      rewrite elem_of_singleton. intros He. apply Hinj in He; [subst; contradiction| |left].
      right. exact Hn.
    + exists f', l'. split; [exact Hrun|].
      intros n Hn. apply elem_of_cons in Hn as [->|Hn]; [|auto].
      destruct (for_each_unlink_frame g ns _ _ _ _ _ Hrun) as (_ & _ & F3).
      rewrite F3; [simpl; apply lookup_delete_eq|].
      intros n Hn He. apply Hinj in He; [subst; contradiction | left | right; exact Hn].
Qed.

(** ** The maintenance route *)

Lemma fs_readdir_run (p : path) (f : fsys) (l : list event) :
  fs_readdir p (f, l) =
    if bool_decide (p ∈ fs_dirs f) then (Ok (dir_entries f p), (f, l ++ [EvReaddir p]))
    else (Throw (enoent "scandir" p), (f, l ++ [EvReaddir p])).
Proof. unfold fs_readdir, bind, log_ev. simpl. destruct (bool_decide _); reflexivity. Qed.

Lemma cleanupDirectories_ok (st : fsys * list event) : fst (cleanupDirectories st) = Ok tt.
Proof.
  unfold cleanupDirectories, catch.
  destruct (bind _ _ st) as [[[]|m] st']; reflexivity.
Qed.

Lemma cleanupDirectories_frame (f : fsys) (l : list event) r f' l' :
  cleanupDirectories (f, l) = (r, (f', l')) ->
  fs_dirs f' = fs_dirs f /\
  (forall q, (forall n, n ∈ dir_entries f (inputDir config) ->
                        q <> path_join (inputDir config) n) ->
             fs_files f' !! q = fs_files f !! q).
Proof.
  unfold cleanupDirectories, catch, bind at 1. rewrite fs_readdir_run.
  destruct (bool_decide _).
  - destruct (for_each _ _ _) as [r1 [f1 l1]] eqn:E.
    apply for_each_unlink_frame in E as (E1 & _ & E3).
    destruct r1; unfold ret; intros [= <- <- <-]; auto.
  - unfold ret. intros [= <- <- <-]. auto.
Qed.

(** The last segment of a path of a well-formed file system is a proper name. *)
Lemma fs_wf_entry_seg (f : fsys) (p : path) (n : string) :
  fs_wf f -> n ∈ dir_entries f p -> seg_ok n.
Proof.
  intros (Hseg & _ & _) Hn. apply dir_entries_spec in Hn.
  apply Hseg in Hn. apply Forall_app in Hn as [_ Hn]. inversion Hn. assumption.
Qed.

Lemma cleanupDirectories_all (f : fsys) (l : list event) :
  fs_wf f ->
  (forall n, (inputDir config ++ [n] ∉ fs_dirs f) /\ (inputDir config ++ [n] ∉ fs_readonly f)) ->
  forall n, fs_files (fst (snd (cleanupDirectories (f, l)))) !! (inputDir config ++ [n]) = None.
Proof.
  intros Hwf Hno n.
  destruct (decide (inputDir config ∈ fs_dirs f)) as [Hin|Hout].
  - set (g := path_join (inputDir config)).
    assert (Hg : forall m, m ∈ dir_entries f (inputDir config) -> g m = inputDir config ++ [m]).
    { intros m Hm. apply path_join_seg. eapply fs_wf_entry_seg; eassumption. }
    destruct (for_each_unlink_all g (dir_entries f (inputDir config)) f
                (l ++ [EvReaddir (inputDir config)])) as (f' & l' & Hrun & Hgone).
    + apply dir_entries_NoDup.
    + intros n1 n2 H1 H2 He. rewrite (Hg n1 H1), (Hg n2 H2) in He.
      apply app_inj_tail in He as [_ He]. exact He.
    + intros m Hm. rewrite (Hg m Hm). destruct (Hno m) as [Hd Hr].
      split; [|split; assumption].
      apply dir_entries_spec in Hm as [Hm|Hm]; [exact Hm | contradiction].
    + unfold cleanupDirectories, catch, bind at 1. rewrite fs_readdir_run.
      rewrite bool_decide_true by exact Hin. fold g. rewrite Hrun. cbn [fst snd].
      destruct (decide (n ∈ dir_entries f (inputDir config))) as [Hn|Hn].
      * rewrite <- (Hg n Hn). apply Hgone, Hn.
      * destruct (for_each_unlink_frame g _ _ _ _ _ _ Hrun) as (_ & _ & F3).
        rewrite F3.
        -- apply not_elem_of_dom. intros Hd. apply Hn, dir_entries_spec. left. exact Hd.
        -- intros m Hm He. rewrite (Hg m Hm) in He. apply app_inj_tail in He as [_ ->].
           contradiction.
  - destruct (cleanupDirectories (f, l)) as [r [f' l']] eqn:E. cbn [fst snd].
    apply cleanupDirectories_frame in E as [_ E]. rewrite E.
    + apply not_elem_of_dom. intros Hd.
      destruct Hwf as (_ & Hpar & _). destruct (Hpar _ n (or_introl Hd)) as [He|He];
        [discriminate | contradiction].
    + intros m Hm. apply dir_entries_spec in Hm as [Hm|Hm].
      * destruct Hwf as (_ & Hpar & _). destruct (Hpar _ m (or_introl Hm)) as [He|He];
          [discriminate | contradiction].
      * destruct Hwf as (_ & Hpar & _). destruct (Hpar _ m (or_intror Hm)) as [He|He];
          [discriminate | contradiction].
Qed.

Section Runs.
Variable R : job -> job -> Prop.
Hypothesis R_trans : forall a b c, R a b -> R b c -> R a c.

Lemma chain_join (a b c : job) (l1 l2 : list job) :
  chain R (a :: l1 ++ [b]) -> chain R (b :: l2 ++ [c]) -> chain R (a :: (l1 ++ l2) ++ [c]).
Proof.
  revert a. induction l1 as [|x l1 IH]; intros a H1 H2; simpl in *.
  - destruct H1 as [Hab _]. destruct l2 as [|y l2]; simpl in *.
    + destruct H2 as [Hbc _]. split; [eauto | exact I].
    + destruct H2 as [Hby H2]. split; [eauto | exact H2].
  - destruct H1 as [Hax H1]. split; [exact Hax|]. apply IH; assumption.
Qed.

Lemma runs_conseq {A} (P P' : job -> Prop) (c : PM A) (Q Q' : res A -> job -> Prop) :
  runs R P c Q -> (forall j, P' j -> P j) -> (forall r j, Q r j -> Q' r j) -> runs R P' c Q'.
Proof.
  intros H HP HQ s r s' E Hp. destruct (H s r s' E (HP _ Hp)) as (l & H1 & H2 & H3).
  exists l. eauto.
Qed.

Lemma runs_stay {A} (P : job -> Prop) (c : PM A) (Q : res A -> job -> Prop) :
  (forall s r s', c s = (r, s') -> p_job s' = p_job s /\ p_obs s' = p_obs s /\
                                   (P (p_job s) -> Q r (p_job s))) ->
  (forall j, P j -> R j j) ->
  runs R P c Q.
Proof.
  intros H HR s r s' E Hp. destruct (H s r s' E) as (Hj & Ho & HQ).
  exists []. rewrite Ho, Hj, app_nil_r. simpl. auto.
Qed.

Lemma runs_ret {A} (P : job -> Prop) (a : A) (Q : res A -> job -> Prop) :
  (forall j, P j -> R j j /\ Q (Ok a) j) -> runs R P (ret a) Q.
Proof.
  intros H. apply runs_stay; [|intros j Hj; apply H, Hj].
  unfold ret. intros s r s' [= <- <-]. repeat split. intros Hp. apply H, Hp.
Qed.

Lemma runs_throw {A} (P : job -> Prop) (m : string) (Q : res A -> job -> Prop) :
  (forall j, P j -> R j j /\ Q (Throw m) j) -> runs R P (throw m) Q.
Proof.
  intros H. apply runs_stay; [|intros j Hj; apply H, Hj].
  unfold throw. intros s r s' [= <- <-]. repeat split. intros Hp. apply H, Hp.
Qed.

Lemma runs_lift_res {A} (P : job -> Prop) (x : res A) (Q : res A -> job -> Prop) :
  (forall j, P j -> R j j /\ Q x j) -> runs R P (lift_res x) Q.
Proof.
  intros H. apply runs_stay; [|intros j Hj; apply H, Hj].
  unfold lift_res. intros s r s' [= <- <-]. repeat split. intros Hp. apply H, Hp.
Qed.

Lemma runs_lift_fs {A} (P : job -> Prop) (c : FM A) (Q : res A -> job -> Prop) :
  (forall j, P j -> R j j /\ forall r, Q r j) -> runs R P (lift_fs c) Q.
Proof.
  intros H. apply runs_stay; [|intros j Hj; apply H, Hj].
  unfold lift_fs. intros s r s' E. destruct (c (p_fs s, p_log s)) as [r1 [f1 l1]].
  injection E as <- <-. repeat split. intros Hp. apply H, Hp.
Qed.

Lemma runs_lift_log (P : job -> Prop) (e : event) (Q : res unit -> job -> Prop) :
  (forall j, P j -> R j j /\ Q (Ok tt) j) -> runs R P (lift_fs (log_ev e)) Q.
Proof.
  intros H. apply runs_stay; [|intros j Hj; apply H, Hj].
  unfold lift_fs, log_ev. intros s r s' [= <- <-]. repeat split. intros Hp. apply H, Hp.
Qed.

Lemma runs_set_sizes (P : job -> Prop) (o c : nat) (Q : res unit -> job -> Prop) :
  (forall j, P j -> R j j /\ Q (Ok tt) j) -> runs R P (set_sizes o c) Q.
Proof.
  intros H. apply runs_stay; [|intros j Hj; apply H, Hj].
  unfold set_sizes. intros s r s' [= <- <-]. repeat split. intros Hp. apply H, Hp.
Qed.

Lemma runs_add_orig (P : job -> Prop) (k : nat) (Q : res unit -> job -> Prop) :
  (forall j, P j -> R j j /\ Q (Ok tt) j) -> runs R P (add_orig k) Q.
Proof.
  intros H. apply runs_stay; [|intros j Hj; apply H, Hj].
  unfold add_orig. intros s r s' [= <- <-]. repeat split. intros Hp. apply H, Hp.
Qed.

Lemma runs_add_comp (P : job -> Prop) (k : nat) (Q : res unit -> job -> Prop) :
  (forall j, P j -> R j j /\ Q (Ok tt) j) -> runs R P (add_comp k) Q.
Proof.
  intros H. apply runs_stay; [|intros j Hj; apply H, Hj].
  unfold add_comp. intros s r s' [= <- <-]. repeat split. intros Hp. apply H, Hp.
Qed.

Lemma runs_get_sizes (P : job -> Prop) (Q : res (nat * nat) -> job -> Prop) :
  (forall j, P j -> R j j /\ forall x, Q (Ok x) j) -> runs R P get_sizes Q.
Proof.
  intros H. apply runs_stay; [|intros j Hj; apply H, Hj].
  unfold get_sizes. intros s r s' [= <- <-]. repeat split. intros Hp. apply H, Hp.
Qed.

Lemma runs_snapshot (P : job -> Prop) (Q : res unit -> job -> Prop) :
  (forall j, P j -> R j j /\ Q (Ok tt) j) -> runs R P snapshot Q.
Proof.
  intros H s r s' E Hp. unfold snapshot in E. injection E as <- <-. simpl.
  exists [p_job s]. destruct (H _ Hp) as [HR HQ]. simpl. auto.
Qed.

Lemma runs_modify (P : job -> Prop) (f : job -> job) (Q : res unit -> job -> Prop) :
  (forall j, P j -> R j (f j) /\ Q (Ok tt) (f j)) -> runs R P (modify_job f) Q.
Proof.
  intros H s r s' E Hp. unfold modify_job in E. injection E as <- <-. simpl.
  exists []. rewrite app_nil_r. destruct (H _ Hp) as [HR HQ]. simpl. auto.
Qed.

Lemma runs_bind {A B} (P : job -> Prop) (c : PM A) (k : A -> PM B)
    (Q1 : res A -> job -> Prop) (Q : res B -> job -> Prop) :
  runs R P c Q1 ->
  (forall a, runs R (Q1 (Ok a)) (k a) Q) ->
  (forall m j, Q1 (Throw m) j -> Q (Throw m) j) ->
  runs R P (bind c k) Q.
Proof.
  intros Hc Hk Ht s r s' E Hp. unfold bind in E.
  destruct (c s) as [[a|m] s1] eqn:E1.
  - destruct (Hc s _ s1 E1 Hp) as (l1 & O1 & C1 & Q1a).
    destruct (Hk a s1 r s' E Q1a) as (l2 & O2 & C2 & Q2).
    exists (l1 ++ l2). rewrite O2, O1, app_assoc. split; [reflexivity|].
    split; [eapply chain_join; eassumption | exact Q2].
  - injection E as <- <-. destruct (Hc s _ s1 E1 Hp) as (l1 & O1 & C1 & Q1a).
    exists l1. auto.
Qed.

Lemma runs_catch {A} (P : job -> Prop) (c : PM A) (h : string -> PM A)
    (Q1 : res A -> job -> Prop) (Q : res A -> job -> Prop) :
  runs R P c Q1 ->
  (forall a j, Q1 (Ok a) j -> Q (Ok a) j) ->
  (forall m, runs R (Q1 (Throw m)) (h m) Q) ->
  runs R P (catch c h) Q.
Proof.
  intros Hc Ho Hh s r s' E Hp. unfold catch in E.
  destruct (c s) as [[a|m] s1] eqn:E1.
  - injection E as <- <-. destruct (Hc s _ s1 E1 Hp) as (l1 & O1 & C1 & Q1a).
    exists l1. auto.
  - destruct (Hc s _ s1 E1 Hp) as (l1 & O1 & C1 & Q1a).
    destruct (Hh m s1 r s' E Q1a) as (l2 & O2 & C2 & Q2).
    exists (l1 ++ l2). rewrite O2, O1, app_assoc. split; [reflexivity|].
    split; [eapply chain_join; eassumption | exact Q2].
Qed.

Lemma runs_for_each {A} (Inv : list A -> job -> Prop) (QT : string -> job -> Prop)
    (xs : list A) (body : A -> PM unit) :
  (forall x rest, runs R (Inv (x :: rest)) (body x)
                    (fun r j => match r with Ok _ => Inv rest j | Throw m => QT m j end)) ->
  (forall j, Inv [] j -> R j j) ->
  runs R (Inv xs) (for_each xs body)
    (fun r j => match r with Ok _ => Inv [] j | Throw m => QT m j end).
Proof.
  intros Hb Hn. induction xs as [|x xs IH]; simpl.
  - apply runs_ret. intros j Hj. split; [apply Hn|]; exact Hj.
  - eapply runs_bind; [apply Hb | intros []; exact IH | intros m j Hj; exact Hj].
Qed.

Lemma runs_await_fs {A} (P : job -> Prop) (c : FM A) (Q : res A -> job -> Prop) :
  (forall j, P j -> R j j /\ forall r, Q r j) -> runs R P (await_fs c) Q.
Proof.
  intros H. unfold await_fs. eapply runs_bind.
  - apply (runs_snapshot P (fun r j => P j /\ r = Ok tt)).
    intros j Hj. split; [apply H, Hj | split; [exact Hj | reflexivity]].
  - intros []. apply runs_lift_fs. intros j [Hj _]. exact (H j Hj).
  - intros m j [_ Hm]. discriminate.
Qed.

Lemma runs_await_ext {A} (P : job -> Prop) (e : event) (x : res A) (Q : res A -> job -> Prop) :
  (forall j, P j -> R j j /\ Q x j) -> runs R P (await_ext e x) Q.
Proof.
  intros H. unfold await_ext. eapply runs_bind.
  - apply (runs_snapshot P (fun r j => P j /\ r = Ok tt)).
    intros j Hj. split; [apply H, Hj | split; [exact Hj | reflexivity]].
  - intros []. eapply runs_bind.
    + apply (runs_lift_log _ e (fun r j => P j /\ r = Ok tt)).
      intros j [Hj _]. split; [apply H, Hj | split; [exact Hj | reflexivity]].
    + intros []. apply runs_lift_res. intros j [Hj _]. exact (H j Hj).
    + intros m j [_ Hm]. discriminate.
  - intros m j [_ Hm]. discriminate.
Qed.

End Runs.

Lemma status_le_trans (a b c : job_status) : status_le a b -> status_le b c -> status_le a c.
Proof. unfold status_le. destruct a, b, c; intuition congruence. Qed.

Lemma job_step_trans (a b c : job) : job_step a b -> job_step b c -> job_step a c.
Proof.
  unfold job_step. intros (Ha & Hb & Hs1 & Hp1 & Ht1) (_ & Hc & Hs2 & Hp2 & Ht2).
  split; [exact Ha|]. split; [exact Hc|]. split; [eapply status_le_trans; eassumption|].
  split; [lia|].
  destruct Ht1 as [Ht1|Ht1]; [left; exact Ht1|].
    destruct Ht2 as [Ht2|Ht2]; [left; congruence | right; congruence].
Qed.

Lemma job_step_refl (j : job) : job_inv j -> job_step j j.
Proof. intros Hj. unfold job_step, status_le. split; [exact Hj|]. split; [exact Hj|]. auto. Qed.

Lemma loop_inv_job_inv (rest : list nat) (j : job) : loop_inv rest j -> job_inv j.
Proof.
  intros (Hs & Ho & Hp). split; [lia|]. rewrite Ho, Hs. split; [intros [? H]; discriminate | discriminate].
Qed.

Lemma loop_inv_fail_inv (rest : list nat) (j : job) : loop_inv rest j -> fail_inv j.
Proof.
  intros H. pose proof (loop_inv_job_inv _ _ H). destruct H as (Hs & Ho & _).
  split; [left; exact Hs | split; assumption].
Qed.

Lemma optimizeImage_state {S} (ev : env) (b : bytes) (n t : nat) (fmt : string) (s : S) :
  exists out, optimizeImage ev b n t fmt s = (Ok out, s).
Proof.
  unfold optimizeImage, catch, bind, lift_res, ret.
  destruct (sharp_run ev (sharp_ops fmt) b); eexists; reflexivity.
Qed.

Lemma runs_optimizeImage (R : job -> job -> Prop) (P : job -> Prop) ev b n t fmt
    (Q : res bytes -> job -> Prop) :
  (forall j, P j -> R j j /\ forall x, Q (Ok x) j) ->
  runs R P (optimizeImage ev b n t fmt) Q.
Proof.
  intros H. apply runs_stay; [|intros j Hj; apply H, Hj].
  intros s r s' E. destruct (optimizeImage_state ev b n t fmt s) as [out E'].
  rewrite E' in E. injection E as <- <-. repeat split. intros Hp. apply H, Hp.
Qed.

(** ** Fragments that keep a reflexive and transitive relation *)

Section Keeps.
Variable R : job -> job -> Prop.
Hypothesis R_refl : forall j, R j j.
Hypothesis R_trans : forall a b c, R a b -> R b c -> R a c.

Local Notation keeps c := (runs R (fun _ => True) c (fun _ _ => True)).

Lemma rk_bind {A B} (c : PM A) (k : A -> PM B) :
  keeps c -> (forall a, keeps (k a)) -> keeps (bind c k).
Proof using R_refl R_trans.
  intros Hc Hk. eapply (runs_bind R R_trans); [exact Hc | exact Hk | auto].
Qed.

Lemma rk_catch {A} (c : PM A) (h : string -> PM A) :
  keeps c -> (forall m, keeps (h m)) -> keeps (catch c h).
Proof using R_refl R_trans.
  intros Hc Hh. eapply (runs_catch R R_trans); [exact Hc | auto | exact Hh].
Qed.

Lemma rk_for_each {A} (xs : list A) (body : A -> PM unit) :
  (forall x, keeps (body x)) -> keeps (for_each xs body).
Proof using R_refl R_trans.
  intros Hb. eapply runs_conseq;
    [apply (runs_for_each R R_trans (fun _ _ => True) (fun _ _ => True)) | auto | auto].
  - intros x rest. eapply runs_conseq; [apply Hb | auto | intros [] j _; exact I].
  - intros j _. apply R_refl.
Qed.

Lemma rk_modify (g : job -> job) : (forall j, R j (g j)) -> keeps (modify_job g).
Proof using R_refl R_trans. intros Hg. apply runs_modify. auto. Qed.

Lemma rk_ret {A} (a : A) : keeps (ret a).
Proof using R_refl R_trans. apply runs_ret. intros j _. split; [apply R_refl | exact I]. Qed.

Lemma rk_throw {A} (m : string) : keeps (throw (A:=A) m).
Proof using R_refl R_trans. apply runs_throw. intros j _. split; [apply R_refl | exact I]. Qed.

Lemma rk_lift_res {A} (x : res A) : keeps (lift_res x).
Proof using R_refl R_trans. apply runs_lift_res. intros j _. split; [apply R_refl | exact I]. Qed.

Lemma rk_snapshot : keeps snapshot.
Proof using R_refl R_trans. apply runs_snapshot. intros j _. split; [apply R_refl | exact I]. Qed.

Lemma rk_await_fs {A} (c : FM A) : keeps (await_fs c).
Proof using R_refl R_trans. apply (runs_await_fs R R_trans). intros j _. split; [apply R_refl | auto]. Qed.

Lemma rk_await_ext {A} (e : event) (x : res A) : keeps (await_ext e x).
Proof using R_refl R_trans. apply (runs_await_ext R R_trans). intros j _. split; [apply R_refl | exact I]. Qed.

Lemma rk_set_sizes (o c : nat) : keeps (set_sizes o c).
Proof using R_refl R_trans. apply runs_set_sizes. intros j _. split; [apply R_refl | exact I]. Qed.

Lemma rk_add_orig (k : nat) : keeps (add_orig k).
Proof using R_refl R_trans. apply runs_add_orig. intros j _. split; [apply R_refl | exact I]. Qed.

Lemma rk_add_comp (k : nat) : keeps (add_comp k).
Proof using R_refl R_trans. apply runs_add_comp. intros j _. split; [apply R_refl | exact I]. Qed.

Lemma rk_get_sizes : keeps get_sizes.
Proof using R_refl R_trans. apply runs_get_sizes. intros j _. split; [apply R_refl | auto]. Qed.

Lemma rk_optimizeImage ev b n t fmt : keeps (optimizeImage ev b n t fmt).
Proof using R_refl R_trans. apply runs_optimizeImage. intros j _. split; [apply R_refl | auto]. Qed.

End Keeps.

(** Proves [runs R (fun _ => True) c (fun _ _ => True)] for a program
    [c]; [Hr] and [Ht] are the reflexivity and transitivity of [R], and
    [tac] proves [R j (g j)] for each update [g] of the record. *)
Ltac rkeeps Hr Ht tac :=
  repeat first
    [ apply (rk_await_fs _ Hr Ht) | apply (rk_await_ext _ Hr Ht)
    | apply (rk_bind _ Hr Ht); [|intros ?]
    | apply (rk_catch _ Hr Ht); [|intros ?]
    | apply (rk_for_each _ Hr Ht); intros ?
    | apply (rk_modify _ Hr Ht); intros ?; tac
    | apply (rk_ret _ Hr Ht) | apply (rk_throw _ Hr Ht) | apply (rk_lift_res _ Hr Ht)
    | apply (rk_snapshot _ Hr Ht) | apply (rk_set_sizes _ Hr Ht)
    | apply (rk_add_orig _ Hr Ht) | apply (rk_add_comp _ Hr Ht) | apply (rk_get_sizes _ Hr Ht)
    | apply (rk_optimizeImage _ Hr Ht)
    | match goal with |- runs _ _ (match ?x with _ => _ end) _ => destruct x end ].

Lemma chain_head (R : job -> job -> Prop) (x : job) (l : list job) :
  (forall a b c, R a b -> R b c -> R a c) ->
  chain R (x :: l) -> forall y, In y l -> R x y.
Proof.
  intros Htr. revert x. induction l as [|z l IH]; intros x Hc y Hy; [destruct Hy|].
  destruct Hc as [Hxz Hc]. destruct Hy as [<-|Hy]; [exact Hxz|].
  eapply Htr; [exact Hxz | exact (IH z Hc y Hy)].
Qed.

(** ** [totalPages] along a run *)

Lemma tp_step_refl (ev : env) (j : job) : tp_step ev j j.
Proof. left. reflexivity. Qed.

Lemma tp_step_trans (ev : env) (a b c : job) : tp_step ev a b -> tp_step ev b c -> tp_step ev a c.
Proof.
  unfold tp_step. intros [Hab|(Ha & d1 & Hd1)] [Hbc|(Hb & d2 & Hd2)].
  - left. congruence.
  - right. split; [congruence | exists d2; exact Hd2].
  - right. split; [exact Ha | exists d1; congruence].
  - right. split; [exact Ha | exists d2; exact Hd2].
Qed.

(** The part of [convertPDFToImages] before it opens the document leaves
    [totalPages] at 0; opening sets it to what the loader returned. *)
Lemma convert_open_tp (ev : env) (p : string) (d : dirid) :
  runs (tp_step ev) (fun j => totalPages j = 0%nat) (convert_open ev p d) (fun _ _ => True).
Proof.
  pose (Z0 := fun A (_ : res A) (j : job) => totalPages j = 0%nat).
  assert (Hs : forall A (c : FM A), runs (tp_step ev) (fun j => totalPages j = 0%nat) (await_fs c) (Z0 A)).
  { intros A c. apply (runs_await_fs _ (tp_step_trans ev)). intros j Hj.
    split; [apply tp_step_refl | intros ?; exact Hj]. }
  unfold convert_open.
  eapply (runs_bind _ (tp_step_trans ev)) with (Q1 := Z0 unit).
  { apply runs_modify. intros j Hj. split; [left; reflexivity | exact Hj]. }
  2:{ intros m j _. exact I. }
  intros []. eapply (runs_bind _ (tp_step_trans ev)); [apply Hs | | intros m j _; exact I].
  intros []. eapply (runs_bind _ (tp_step_trans ev)) with (Q1 := Z0 unit).
  { eapply (runs_catch _ (tp_step_trans ev)); [apply Hs | intros a j Hj; exact Hj |].
    intros m. eapply (runs_bind _ (tp_step_trans ev)).
    - apply (runs_modify _ _ _ (Z0 unit)). intros j Hj. split; [left; reflexivity | exact Hj].
    - intros []. apply runs_throw. intros j Hj. split; [apply tp_step_refl | exact Hj].
    - intros m' j Hj. exact Hj. }
  2:{ intros m j _. exact I. }
  intros []. eapply (runs_bind _ (tp_step_trans ev)); [apply Hs | | intros m j _; exact I].
  intros data. eapply (runs_bind _ (tp_step_trans ev)) with
    (Q1 := fun r j => totalPages j = 0%nat /\ forall n, r = Ok n -> get_document ev data = Ok n).
  - apply (runs_await_ext _ (tp_step_trans ev)). intros j Hj.
    split; [apply tp_step_refl | split; [exact Hj | intros n Hn; exact Hn]].
  - intros n. eapply (runs_bind _ (tp_step_trans ev)).
    + apply (runs_modify _ _ _ (fun _ _ => True)). intros j [Hj Hd]. split; [|exact I].
      right. split; [exact Hj | exists data; apply Hd; reflexivity].
    + intros []. apply runs_ret. intros j _. split; [apply tp_step_refl | exact I].
    + intros m j _. exact I.
  - intros m j _. exact I.
Qed.

Lemma convertPDFToImages_tp (ev : env) (p : string) (d : dirid) :
  runs (tp_step ev) (fun j => totalPages j = 0%nat) (convertPDFToImages ev p d) (fun _ _ => True).
Proof.
  pose proof (tp_step_refl ev) as Hr. pose proof (tp_step_trans ev) as Ht.
  unfold convertPDFToImages.
  eapply (runs_catch _ Ht) with (Q1 := fun _ _ => True); [| intros _ _ _; exact I |].
  - eapply (runs_bind _ Ht); [apply convert_open_tp | | intros _ _ _; exact I].
    intros n. unfold convert_pages, convert_page. rkeeps Hr Ht ltac:(left; reflexivity).
  - intros m. rkeeps Hr Ht ltac:(left; reflexivity).
Qed.

(** A chain of [tp_step] from a value with [totalPages = 0] is a run of
    values at 0 followed by a run at one page count the loader returned. *)
Lemma tp_chain_split (ev : env) (a : job) (l : list job) :
  chain (tp_step ev) (a :: l) -> totalPages a = 0%nat ->
  exists pre post, l = pre ++ post /\ Forall (fun j' => totalPages j' = 0%nat) pre /\
    (post = [] \/ exists n data, get_document ev data = Ok n /\
                                 Forall (fun j' => totalPages j' = n) post).
Proof.
  revert a. induction l as [|b l IH]; intros a Hc Ha.
  - exists [], []. split; [reflexivity|]. split; [constructor | left; reflexivity].
  - pose proof Hc as [Hab Hc'].
    destruct (decide (totalPages b = 0%nat)) as [Hb|Hb].
    + destruct (IH b Hc' Hb) as (pre & post & -> & Hpre & Hpost).
      exists (b :: pre), post. split; [reflexivity|]. split; [constructor; assumption | exact Hpost].
    + destruct Hab as [Hab|(_ & data & Hd)]; [congruence|].
      exists [], (b :: l). split; [reflexivity|]. split; [constructor|].
      right. exists (totalPages b), data. split; [exact Hd|].
      constructor; [reflexivity|]. apply List.Forall_forall. intros y Hy.
      destruct (chain_head _ b l (tp_step_trans ev) Hc' y Hy) as [Hy'|[Hb0 _]]; [exact Hy' | congruence].
Qed.

Lemma pipeline_trace_tp (ev : env) (f : fsys) (others : nat -> fsys -> fsys) (j : job) :
  totalPages j = 0%nat -> chain (tp_step ev) (j :: pipeline_trace ev f others j).
Proof.
  intros Hj. unfold pipeline_trace, run_pipeline.
  destruct (convertPDFToImages ev (pdfPath j) (directoryId j) (mkP j f [] [] 0 0 others)) as [r s'] eqn:E.
  destruct (convertPDFToImages_tp ev (pdfPath j) (directoryId j) _ _ _ E Hj) as (l & Ho & Hc & _).
  simpl in Ho, Hc. simpl. rewrite Ho. exact Hc.
Qed.

Lemma job_step_same (j j' : job) :
  job_inv j -> status j' = status j -> processedPages j' = processedPages j ->
  totalPages j' = totalPages j -> outputPath j' = outputPath j -> job_step j j'.
Proof.
  intros Hj Hs Hp Ht Ho. unfold job_step, job_inv in *. rewrite Hs, Hp, Ht, Ho.
  split; [exact Hj|]. split; [exact Hj|]. split; [left; reflexivity|]. split; [lia | right; reflexivity].
Qed.

Lemma seq_ok {A B} (P X T : job -> Prop) (Q : res B -> job -> Prop) (c : PM A) (k : A -> PM B) :
  runs job_step P c (okthen X T) -> (forall a, runs job_step X (k a) Q) ->
  (forall m j, T j -> Q (Throw m) j) -> runs job_step P (bind c k) Q.
Proof.
  intros Hc Hk Ht. eapply (runs_bind job_step job_step_trans); [exact Hc | | exact Ht].
  intros a. exact (Hk a).
Qed.

Lemma loop_inv_same (rest : list nat) (j j' : job) :
  loop_inv rest j -> status j' = status j -> processedPages j' = processedPages j ->
  totalPages j' = totalPages j -> outputPath j' = outputPath j ->
  job_step j j' /\ loop_inv rest j'.
Proof.
  intros Hl Hs Hp Ht Ho. split.
  - apply job_step_same; eauto using loop_inv_job_inv.
  - unfold loop_inv in *. rewrite Hs, Hp, Ht, Ho. exact Hl.
Qed.

Lemma loop_stay (rest : list nat) (j : job) : loop_inv rest j -> job_step j j /\ loop_inv rest j.
Proof. intros H. split; [apply job_step_refl; eapply loop_inv_job_inv; exact H | exact H]. Qed.

Lemma loop_inv_cons (x : nat) (rest : list nat) (j : job) : loop_inv (x :: rest) j -> loop_inv rest j.
Proof. unfold loop_inv. simpl. intros (? & ? & ?). split; [assumption|]. split; [assumption|]. lia. Qed.

Lemma convert_page_runs (ev : env) (dir : path) (N x : nat) (rest : list nat) :
  runs job_step (loop_inv (x :: rest)) (convert_page ev dir N x) (okthen (loop_inv rest) fail_inv).
Proof.
  unfold convert_page.
  apply (seq_ok _ (loop_inv (x :: rest)) fail_inv); [| intros _ | intros m j H; exact H].
  { apply runs_modify. intros j Hj. apply loop_inv_same; auto. }
  apply (seq_ok _ (loop_inv (x :: rest)) fail_inv); [| intros _ | intros m j H; exact H].
  { apply (runs_await_ext job_step job_step_trans). intros j Hj. split; [exact (proj1 (loop_stay _ _ Hj))|].
    destruct (get_page ev x); simpl; eauto using loop_inv_fail_inv. }
  apply (seq_ok _ (loop_inv (x :: rest)) fail_inv); [| intros _ | intros m j H; exact H].
  { apply runs_lift_res. intros j Hj. split; [exact (proj1 (loop_stay _ _ Hj))|].
    destruct (prepare_canvas ev x); simpl; eauto using loop_inv_fail_inv. }
  apply (runs_catch job_step job_step_trans) with (Q1 := fun _ j => loop_inv rest j).
  - apply (seq_ok _ (loop_inv (x :: rest)) (loop_inv rest)); [| intros raw | intros m j H; exact H].
    { apply (runs_await_ext job_step job_step_trans). intros j Hj. split; [exact (proj1 (loop_stay _ _ Hj))|].
      destruct (render_page _ _ _); simpl; eauto using loop_inv_cons. }
    apply (seq_ok _ (loop_inv (x :: rest)) (loop_inv rest)); [| intros _ | intros m j H; exact H].
    { apply runs_add_orig. intros j Hj. split; [exact (proj1 (loop_stay _ _ Hj)) | exact Hj]. }
    apply (seq_ok _ (loop_inv (x :: rest)) (loop_inv rest)); [| intros opt | intros m j H; exact H].
    { apply (seq_ok _ (loop_inv (x :: rest)) (loop_inv rest)); [| intros _ | intros m j H; exact H].
      - apply runs_snapshot. intros j Hj. split; [exact (proj1 (loop_stay _ _ Hj)) | exact Hj].
      - apply runs_optimizeImage. intros j Hj. split; [exact (proj1 (loop_stay _ _ Hj)) | intros; exact Hj]. }
    apply (seq_ok _ (loop_inv (x :: rest)) (loop_inv rest)); [| intros _ | intros m j H; exact H].
    { apply runs_add_comp. intros j Hj. split; [exact (proj1 (loop_stay _ _ Hj)) | exact Hj]. }
    apply (seq_ok _ (loop_inv (x :: rest)) (loop_inv rest)); [| intros _ | intros m j H; exact H].
    { apply (runs_await_fs job_step job_step_trans). intros j Hj. split; [exact (proj1 (loop_stay _ _ Hj))|].
      intros []; simpl; eauto using loop_inv_cons. }
    apply (seq_ok _ (loop_inv rest) (loop_inv rest)); [| intros _ | intros m j H; exact H].
    { apply runs_modify. intros j (Hs & Ho & Hp). unfold count_page, job_step, job_inv, loop_inv in *; simpl in *.
      rewrite Hs, Ho. split; [|split; [reflexivity|split; [reflexivity|lia]]].
      split; [split; [lia|split; [intros [? H]; discriminate|discriminate]]|].
      split; [split; [lia|split; [intros [? H]; discriminate|discriminate]]|].
      split; [left; reflexivity|]. split; [lia|right; reflexivity]. }
    apply runs_lift_res. intros j Hj. split; [exact (proj1 (loop_stay _ _ Hj))|].
    destruct (page_cleanup ev x); exact Hj.
  - intros a j H. exact H.
  - intros m. apply runs_modify. intros j Hj. apply loop_inv_same; auto.
Qed.

Lemma opened_loop_inv (n : nat) (j : job) : opened n j -> loop_inv (seq 1 n) j.
Proof. intros (Hs & Ho & Hp & Ht). unfold loop_inv. rewrite length_seq. split; [exact Hs|]. split; [exact Ho|]. lia. Qed.

Lemma opened_job_inv (n : nat) (j : job) : opened n j -> job_inv j.
Proof.
  intros (Hs & Ho & Hp & Ht). unfold job_inv. rewrite Ho, Hs. split; [lia|].
  split; [intros [? H]; discriminate | discriminate].
Qed.

Lemma convert_pages_runs (ev : env) (d : dirid) (n : nat) :
  runs job_step (opened n) (convert_pages ev d n)
    (okthen (fun j => status j = Completed /\ job_inv j) fail_inv).
Proof.
  unfold convert_pages.
  apply (seq_ok _ (loop_inv (seq 1 n)) fail_inv); [| intros _ | intros m j H; exact H].
  { apply (runs_await_fs job_step job_step_trans). intros j Hj. apply opened_loop_inv in Hj.
    split; [exact (proj1 (loop_stay _ _ Hj))|]. intros []; simpl; eauto using loop_inv_fail_inv. }
  apply (seq_ok _ (loop_inv (seq 1 n)) fail_inv); [| intros _ | intros m j H; exact H].
  { apply runs_set_sizes. intros j Hj. split; [exact (proj1 (loop_stay _ _ Hj)) | exact Hj]. }
  apply (seq_ok _ (loop_inv []) fail_inv); [| intros _ | intros m j H; exact H].
  { eapply runs_conseq.
    - apply (runs_for_each job_step job_step_trans loop_inv (fun _ => fail_inv)).
      + intros x rest. exact (convert_page_runs ev _ n x rest).
      + intros j Hj. exact (proj1 (loop_stay _ _ Hj)).
    - auto.
    - intros [] j H; exact H. }
  apply (seq_ok _ (loop_inv []) fail_inv); [| intros [o c] | intros m j H; exact H].
  { apply runs_get_sizes. intros j Hj. split; [exact (proj1 (loop_stay _ _ Hj)) | intros; exact Hj]. }
  apply (seq_ok _ (fun j => status j = Completed /\ job_inv j) fail_inv); [| intros _ | intros m j H; exact H].
  { apply runs_modify. intros j (Hs & Ho & Hp). simpl in Hp.
    assert (Hi : job_inv (complete_job (path_str (path_join (outputDir config) (dirid_to_string d))) (now ev)
                   (toFixed2 (js_div (js_of_nat o) (js_of_nat c))) j)).
    { unfold job_inv, complete_job; simpl. split; [lia|]. split; [reflexivity | intros _; eexists; reflexivity]. }
    split; [|split; [reflexivity | exact Hi]].
    unfold job_step. split; [apply loop_inv_job_inv with (rest := []); split; auto|].
    split; [exact Hi|]. unfold complete_job, status_le; simpl. rewrite Hs.
    split; [right; right; auto|]. split; [lia | right; reflexivity]. }
  apply runs_ret. intros j Hj. split; [apply job_step_refl, Hj | exact Hj].
Qed.

Lemma convert_open_runs (ev : env) (p : string) (d : dirid) :
  runs job_step fresh_job (convert_open ev p d)
    (fun r j => match r with Ok n => opened n j | Throw _ => fail_inv j end).
Proof.
  assert (Hf : forall j, opened 0 j -> fail_inv j).
  { intros j (Hs & Ho & Hp & Ht). split; [left; exact Hs|]. split; [exact Ho|].
    split; [lia|]. rewrite Ho, Hs. split; [intros [? H]; discriminate | discriminate]. }
  assert (Hst : forall j, opened 0 j -> job_step j j).
  { intros j Hj. apply job_step_refl. apply Hf, Hj. }
  unfold convert_open.
  apply (seq_ok _ (opened 0) fail_inv); [| intros _ | intros m j H; exact H].
  { apply runs_modify. intros j (Hs & Hp & Ht & Ho).
    assert (Hi : opened 0 (set_status Processing j)) by (unfold opened; simpl; auto).
    split; [|exact Hi]. unfold job_step, job_inv, status_le. simpl. rewrite Hs, Hp, Ht, Ho.
    split; [split; [lia|split; [intros [? H]; discriminate | discriminate]]|].
    split; [split; [lia|split; [intros [? H]; discriminate | discriminate]]|]. split; [right; left; split; [reflexivity|discriminate]|]. lia. }
  apply (seq_ok _ (opened 0) fail_inv); [| intros _ | intros m j H; exact H].
  { apply (runs_await_fs job_step job_step_trans). intros j Hj. split; [apply Hst, Hj|].
    intros []; simpl; auto. }
  apply (seq_ok _ (opened 0) fail_inv); [| intros _ | intros m j H; exact H].
  { apply (runs_catch job_step job_step_trans) with (Q1 := fun _ j => opened 0 j).
    - apply (runs_await_fs job_step job_step_trans). intros j Hj. split; [apply Hst, Hj|]. auto.
    - intros a j H. exact H.
    - intros m. apply (seq_ok _ fail_inv fail_inv); [| intros _ | intros m' j H; exact H].
      + apply runs_modify. intros j Hj. pose proof (Hf _ Hj) as Hfj. destruct Hj as (Hs & Ho & Hp & Ht).
        assert (Hi : fail_inv (set_error (Some (not_found_msg p)) (set_status Failed j))).
        { unfold fail_inv, job_inv; simpl. rewrite Ho. split; [right; reflexivity|]. split; [reflexivity|].
          split; [lia | split; [intros [? H]; discriminate | discriminate]]. }
        split; [|exact Hi]. unfold job_step, status_le. split; [apply Hfj|]. split; [apply Hi|].
        simpl. rewrite Hs. split; [right; right; auto|]. lia.
      + apply runs_throw. intros j Hj. split; [apply job_step_refl, Hj | exact Hj]. }
  apply (seq_ok _ (opened 0) fail_inv); [| intros data | intros m j H; exact H].
  { apply (runs_await_fs job_step job_step_trans). intros j Hj. split; [apply Hst, Hj|].
    intros []; simpl; auto. }
  apply (seq_ok _ (opened 0) fail_inv); [| intros n | intros m j H; exact H].
  { apply (runs_await_ext job_step job_step_trans). intros j Hj. split; [apply Hst, Hj|].
    destruct (get_document ev data); simpl; auto. }
  apply (seq_ok _ (opened n) fail_inv); [| intros _ | intros m j H; exact H].
  { apply runs_modify. intros j Hj. pose proof (Hf _ Hj) as Hfj. destruct Hj as (Hs & Ho & Hp & Ht).
    assert (Hi : opened n (set_processedPages 0 (set_totalPages n j))) by (unfold opened; simpl; auto).
    split; [|exact Hi]. unfold job_step, status_le. split; [apply Hfj|].
    split; [apply (opened_job_inv _ _ Hi)|].
    simpl. split; [left; reflexivity|]. split; [lia | left; exact Ht]. }
  apply runs_ret. intros j Hj. split; [apply job_step_refl, (opened_job_inv _ _ Hj) | exact Hj].
Qed.

Lemma convertPDFToImages_runs (ev : env) (p : string) (d : dirid) :
  runs job_step fresh_job (convertPDFToImages ev p d) final_inv.
Proof.
  unfold convertPDFToImages.
  apply (runs_catch job_step job_step_trans) with
    (Q1 := okthen (fun j => status j = Completed /\ job_inv j) fail_inv).
  - eapply (runs_bind job_step job_step_trans); [apply convert_open_runs | | intros m j H; exact H].
    intros n. apply convert_pages_runs.
  - intros a j (Hs & Hi). split; assumption.
  - intros m. apply (seq_ok _ (fun j => status j = Failed /\ job_inv j) (fun _ => False));
      [| intros _ | intros m' j []].
    + apply runs_modify. intros j (Hs & Ho & Hi).
      assert (Hi' : job_inv (fail_job m (now ev) j)).
      { unfold job_inv, fail_job; simpl. rewrite Ho. split; [apply Hi|].
        split; [intros [? H]; discriminate | discriminate]. }
      split; [|split; [reflexivity | exact Hi']].
      unfold job_step, status_le. split; [exact Hi|]. split; [exact Hi'|].
      simpl. split; [destruct Hs as [-> | ->]; auto|]. lia.
    + apply runs_throw. intros j (Hs & Hi). split; [apply job_step_refl, Hi | split; assumption].
Qed.

Lemma pipeline_chain (ev : env) (f : fsys) (others : nat -> fsys -> fsys) (j : job) :
  fresh_job j ->
  chain job_step (j :: pipeline_trace ev f others j) /\
  final_inv (fst (run_pipeline ev f others j)) (p_job (snd (run_pipeline ev f others j))).
Proof.
  intros Hj. unfold pipeline_trace.
  destruct (run_pipeline ev f others j) as [r s'] eqn:E. simpl.
  destruct (convertPDFToImages_runs ev (pdfPath j) (directoryId j) _ _ _ E Hj) as (l & Ho & Hc & Hq).
  simpl in Ho. rewrite Ho. split; assumption.
Qed.

Lemma fresh_job_inv (j : job) : fresh_job j -> job_inv j.
Proof.
  intros (Hs & Hp & Ht & Ho). unfold job_inv. rewrite Hs, Ho. split; [lia|].
  split; [intros [? H]; discriminate | discriminate].
Qed.

Lemma upload_handler_cases (ensure : res unit) (req : upload_req) (t t' : tracker)
    (resp : response) (o : option Z) :
  upload_handler ensure req t = (Ok (resp, o), t') ->
  (o = None /\ t' = t) \/
  (o = Some (jobCounter t + 1)%Z /\ jobCounter t' = (jobCounter t + 1)%Z /\
   exists j, fresh_job j /\ conversionJobs t' = <[(jobCounter t + 1)%Z := j]> (conversionJobs t)).
Proof.
  unfold upload_handler, catch, bind, lift_res, ret.
  destruct ensure; [|intros H; inversion H; auto].
  destruct (req_file req); intros H; inversion H; subst; [|auto].
  right. simpl. split; [reflexivity|]. split; [reflexivity|].
  eexists; split; [|reflexivity]. unfold fresh_job; simpl; auto.
Qed.

Lemma get_job_status_state (param : string) (t t' : tracker) (r : res response) :
  get_job_status param t = (r, t') -> t' = t.
Proof.
  unfold get_job_status. destruct (match parseInt param with Some k => _ | None => None end);
    intros H; inversion H; reflexivity.
Qed.

Lemma records_step_same (w w' : world) :
  winv w -> conversionJobs (w_tracker w') = conversionJobs (w_tracker w) -> records_step w w'.
Proof.
  intros (_ & Hk & _) E. split.
  - intros k j Hj. exists j. rewrite E. split; [exact Hj|]. apply job_step_refl, (Hk _ _ Hj).
  - intros k j' Hn Hs. rewrite E in Hs. congruence.
Qed.

Lemma winv_init : winv world_init.
Proof.
  split; [simpl; lia|]. split; intros k x H; simpl in H; rewrite lookup_empty in H; discriminate.
Qed.

Lemma winv_step (w w' : world) : winv w -> step w w' -> winv w' /\ records_step w w'.
Proof.
  intros Hw Hs. pose proof Hw as (Hc & Hk & Hr). destruct Hs as
    [w ensure req resp t' Hu | w ensure req resp k j t' ev f others Hu Hj
    | w k j js Hrun | w param resp t' Hg].
  - apply upload_handler_cases in Hu as [[_ ->] | [[=] _]].
    split; [exact Hw | apply records_step_same; [exact Hw | reflexivity]].
  - apply upload_handler_cases in Hu as [[[=] _] | [[= ->] (Hc' & j0 & Hf & Ht')]].
    rewrite Ht' in Hj. rewrite lookup_insert_eq in Hj. injection Hj as <-.
    assert (Hnew : forall k', conversionJobs (w_tracker w) !! k' <> None ->
                   k' <> (jobCounter (w_tracker w) + 1)%Z).
    { intros k' Hk' ->. destruct (conversionJobs (w_tracker w) !! _) as [x|] eqn:Ex; [|congruence].
      destruct (Hk _ _ Ex) as [? _]. lia. }
    split; [split; [|split] | split]; simpl.
    + rewrite Hc'. lia.
    + intros k' x Hx. rewrite Ht' in Hx. rewrite Hc'.
      apply lookup_insert_Some in Hx as [[<- <-] | [_ Hx]].
      * split; [lia | apply fresh_job_inv, Hf].
      * destruct (Hk _ _ Hx). split; [lia | assumption].
    + intros k' js Hjs. rewrite Ht'. apply lookup_insert_Some in Hjs as [[<- <-] | [Hne Hjs]].
      * exists j0. rewrite lookup_insert_eq. split; [reflexivity|].
        apply (pipeline_chain ev f others j0 Hf).
      * destruct (Hr _ _ Hjs) as (x & Hx & Hch). exists x. rewrite lookup_insert_ne by exact Hne.
        split; assumption.
    + intros k' x Hx. rewrite Ht'. exists x. rewrite lookup_insert_ne.
      * split; [exact Hx | apply job_step_refl, (Hk _ _ Hx)].
      * intros E. apply (Hnew k'); [congruence | symmetry; exact E].
    + intros k' x Hn Hx. rewrite Ht' in Hx. apply lookup_insert_Some in Hx as [[<- <-] | [_ Hx]];
        [exact Hf | congruence].
  - destruct (Hr _ _ Hrun) as (j0 & Hj0 & [Hstep Hch]).
    split; [split; [|split] | split]; simpl.
    + exact Hc.
    + intros k' x Hx. apply lookup_insert_Some in Hx as [[<- <-] | [_ Hx]].
      * split; [apply (Hk _ _ Hj0) | apply Hstep].
      * apply (Hk _ _ Hx).
    + intros k' js' Hjs. apply lookup_insert_Some in Hjs as [[<- <-] | [Hne Hjs]].
      * exists j. rewrite lookup_insert_eq. split; [reflexivity | exact Hch].
      * destruct (Hr _ _ Hjs) as (x & Hx & Hch'). exists x. rewrite lookup_insert_ne by exact Hne.
        split; assumption.
    + intros k' x Hx. destruct (decide (k = k')) as [<- | Hne].
      * rewrite Hj0 in Hx. injection Hx as <-. exists j. rewrite lookup_insert_eq. split; [reflexivity | exact Hstep].
      * exists x. rewrite lookup_insert_ne by exact Hne. split; [exact Hx | apply job_step_refl, (Hk _ _ Hx)].
    + intros k' x Hn Hx. apply lookup_insert_Some in Hx as [[<- <-] | [_ Hx]]; congruence.
  - apply get_job_status_state in Hg. subst t'.
    split; [exact Hw | apply records_step_same; [exact Hw | reflexivity]].
Qed.

Lemma winv_steps (w w' : world) : rtc step w w' -> winv w -> winv w'.
Proof.
  induction 1 as [x | x y z Hxy Hyz IH]; intros Hx; [exact Hx|].
  apply IH. apply (winv_step _ _ Hx Hxy).
Qed.

Lemma winv_reachable (w : world) : reachable w -> winv w.
Proof. intros H. apply (winv_steps _ _ H winv_init). Qed.

Lemma quiet_app (L1 L2 : list event) : quiet L1 -> quiet L2 -> quiet (L1 ++ L2).
Proof. unfold quiet, page_events, page_writes. rewrite !omap_app. intros [-> ->] [-> ->]. done. Qed.

Lemma quiet_nil : quiet [].
Proof. split; reflexivity. Qed.

Lemma fm_quiet_bind {A B} (c : FM A) (k : A -> FM B) :
  fm_quiet c -> (forall a, fm_quiet (k a)) -> fm_quiet (bind c k).
Proof.
  intros Hc Hk f l r f' l' E. unfold bind in E.
  destruct (c (f, l)) as [[a|m] [f1 l1]] eqn:E1.
  - destruct (Hc _ _ _ _ _ E1) as (L1 & -> & Q1). destruct (Hk a _ _ _ _ _ E) as (L2 & -> & Q2).
    exists (L1 ++ L2). rewrite app_assoc. split; [reflexivity | apply quiet_app; assumption].
  - injection E as <- <- <-. exact (Hc _ _ _ _ _ E1).
Qed.

Lemma fm_quiet_catch {A} (c : FM A) (h : string -> FM A) :
  fm_quiet c -> (forall m, fm_quiet (h m)) -> fm_quiet (catch c h).
Proof.
  intros Hc Hk f l r f' l' E. unfold catch in E.
  destruct (c (f, l)) as [[a|m] [f1 l1]] eqn:E1.
  - injection E as <- <- <-. exact (Hc _ _ _ _ _ E1).
  - destruct (Hc _ _ _ _ _ E1) as (L1 & -> & Q1). destruct (Hk m _ _ _ _ _ E) as (L2 & -> & Q2).
    exists (L1 ++ L2). rewrite app_assoc. split; [reflexivity | apply quiet_app; assumption].
Qed.

Lemma fm_quiet_ret {A} (a : A) : fm_quiet (ret a).
Proof. intros f l r f' l' E. injection E as <- <- <-. exists []. rewrite app_nil_r. split; [reflexivity | apply quiet_nil]. Qed.

Lemma fm_quiet_throw {A} (m : string) : fm_quiet (A:=A) (throw m).
Proof. intros f l r f' l' E. injection E as <- <- <-. exists []. rewrite app_nil_r. split; [reflexivity | apply quiet_nil]. Qed.

Lemma fm_quiet_for_each {A} (xs : list A) (body : A -> FM unit) :
  (forall x, fm_quiet (body x)) -> fm_quiet (for_each xs body).
Proof.
  intros Hb. induction xs as [|x xs IH]; simpl; [apply fm_quiet_ret|].
  apply fm_quiet_bind; [apply Hb | intros _; exact IH].
Qed.

Lemma fs_access_quiet (p : path) : fm_quiet (fs_access p).
Proof. unfold fs_access. prim_quiet. Qed.

Lemma fs_readdir_quiet (p : path) : fm_quiet (fs_readdir p).
Proof. unfold fs_readdir. prim_quiet. Qed.

Lemma fs_unlink_quiet (p : path) : fm_quiet (fs_unlink p).
Proof. unfold fs_unlink. prim_quiet. Qed.

Lemma fs_readFile_quiet (p : path) : fm_quiet (fs_readFile p).
Proof. unfold fs_readFile. prim_quiet. Qed.

Lemma fs_mkdir_quiet (p : path) : fm_quiet (fs_mkdir_recursive p).
Proof. unfold fs_mkdir_recursive. prim_quiet. Qed.

Lemma cleanDirectoryImages_quiet (d : string) : fm_quiet (cleanDirectoryImages d).
Proof.
  unfold cleanDirectoryImages. apply fm_quiet_catch; [|intros; apply fm_quiet_throw].
  apply fm_quiet_bind.
  - apply fm_quiet_catch; [|intros; apply fm_quiet_ret].
    apply fm_quiet_bind; [apply fs_access_quiet | intros; apply fm_quiet_ret].
  - intros []; [|apply fm_quiet_ret]. apply fm_quiet_bind; [apply fs_readdir_quiet|].
    intros files. apply fm_quiet_for_each. intros; apply fs_unlink_quiet.
Qed.

Lemma fs_writeFile_log (p : path) (b : bytes) (f : fsys) (l : list event) r f' l' :
  fs_writeFile p b (f, l) = (r, (f', l')) -> l' = l ++ [EvWriteFile p b].
Proof. unfold fs_writeFile. cbv [bind log_ev]. simpl. repeat case_match; intros; simplify_eq; reflexivity. Qed.

Lemma convert_page_log (ev : env) (dir : path) (N x : nat) (s s' : pstate) (r : res unit) :
  convert_page ev dir N x s = (r, s') ->
  exists L, p_log s' = p_log s ++ L /\ page_events L = [x] /\
    (page_writes L = [] \/ exists w, page_writes L = [w] /\ page_written ev dir N x w) /\
    totalPages (p_job s') = totalPages (p_job s).
Proof.
  intros E. unfold convert_page, page_written, page_file in *.
  remember (to_lower (imageFormat config)) as fmt eqn:Hfmt.
  cbv [bind catch modify_job await_ext await_fs snapshot lift_fs lift_res log_ev add_orig add_comp] in E.
  simpl in E.
  destruct (get_page ev x) as [u|m]; simpl in E;
    [| injection E as <- <-; exists [EvGetPage x]; simpl; auto].
  destruct (prepare_canvas ev x) as [u'|m]; simpl in E;
    [| injection E as <- <-; exists [EvGetPage x]; simpl; auto].
  destruct (render_page ev x (raw_mime fmt)) as [raw|m] eqn:Er; simpl in E;
    [| injection E as <- <-; exists [EvGetPage x; EvRender x]; simpl;
       rewrite <- app_assoc; auto].
  unfold optimizeImage, catch, bind, lift_res, ret in E.
  destruct (sharp_run ev (sharp_ops fmt) raw) as [out|m0] eqn:Es; simpl in E;
  match type of E with context [fs_writeFile ?p ?b ?st] =>
    destruct (fs_writeFile p b st) as [rw [fw lw]] eqn:Ew; apply fs_writeFile_log in Ew; subst lw
  end; simpl in E;
  (destruct rw; simpl in E; [destruct (page_cleanup ev x); simpl in E|]);
  injection E as <- <-; simpl;
  (eexists; split; [rewrite <- !app_assoc; reflexivity|]); simpl;
  (split; [reflexivity|]); (split; [|reflexivity]); right; eexists; (split; [reflexivity|]);
  (split; [reflexivity|]); exists raw; (split; [reflexivity|]);
  unfold optimizeImage, catch, bind, lift_res, ret; rewrite Es; reflexivity.
Qed.

Lemma pages_loop_log (ev : env) (dir : path) (N : nat) (xs : list nat) (s s' : pstate) (r : res unit) :
  for_each xs (convert_page ev dir N) s = (r, s') ->
  exists L k ns, p_log s' = p_log s ++ L /\ page_events L = take k xs /\ ns `sublist_of` xs /\
    Forall2 (page_written ev dir N) ns (page_writes L) /\
    totalPages (p_job s') = totalPages (p_job s).
Proof.
  revert s r s'. induction xs as [|x xs IH]; intros s r s' E; simpl in E.
  - injection E as <- <-. exists [], 0%nat, []. rewrite app_nil_r. repeat split; constructor.
  - unfold bind in E. destruct (convert_page ev dir N x s) as [[u|m] s1] eqn:E1;
      destruct (convert_page_log _ _ _ _ _ _ _ E1) as (L1 & Hl1 & He1 & Hw1 & Ht1).
    + destruct (IH _ _ _ E) as (L2 & k & ns & Hl2 & He2 & Hs2 & Hw2 & Ht2).
      exists (L1 ++ L2), (S k).
      unfold page_events, page_writes in *. rewrite !omap_app.
      destruct Hw1 as [Hw1 | (w & Hw1 & Hpw)]; rewrite Hw1.
      * exists ns. rewrite Hl2, Hl1, app_assoc. rewrite He1, He2. simpl.
        repeat split; [constructor; exact Hs2 | exact Hw2 | congruence].
      * exists (x :: ns). rewrite Hl2, Hl1, app_assoc. rewrite He1, He2. simpl.
        repeat split; [constructor; exact Hs2 | constructor; assumption | congruence].
    + injection E as <- <-. exists L1, 1%nat.
      destruct Hw1 as [Hw1 | (w & Hw1 & Hpw)]; rewrite Hw1.
      * exists []. rewrite He1. repeat split; try assumption; [apply sublist_nil_l | constructor].
      * exists [x]. rewrite He1. repeat split; try assumption.
        -- apply sublist_skip, sublist_nil_l.
        -- constructor; [exact Hpw | constructor].
Qed.

Lemma convert_pages_log (ev : env) (d : dirid) (n : nat) (s s' : pstate) (r : res string) :
  convert_pages ev d n s = (r, s') -> totalPages (p_job s) = n ->
  exists L k ns, p_log s' = p_log s ++ L /\ page_events L = seq 1 k /\ (k <= n)%nat /\
    ns `sublist_of` seq 1 n /\
    Forall2 (page_written ev (path_join (outputDir config) (dirid_to_string d)) n) ns (page_writes L) /\
    totalPages (p_job s') = n.
Proof.
  intros E Ht. unfold convert_pages in E.
  remember (path_join (outputDir config) (dirid_to_string d)) as dir eqn:Hdir.
  cbv [bind await_fs snapshot lift_fs set_sizes get_sizes modify_job ret] in E. simpl in E.
  match type of E with context [fs_mkdir_recursive ?p ?st] =>
    destruct (fs_mkdir_recursive p st) as [rm [fm lm]] eqn:Em;
    destruct st as [f0 l0] eqn:Est;
    destruct (fs_mkdir_quiet _ _ _ _ _ _ Em) as (Lm & -> & [Qe Qw])
  end.
  simpl in E. destruct rm as [u|m]; simpl in E.
  - match type of E with context [for_each ?xs ?b ?st] =>
      destruct (for_each xs b st) as [rl sl] eqn:El;
      destruct (pages_loop_log _ _ _ _ _ _ _ El) as (L & k & ns & Hl & He & Hs & Hw & Ht')
    end.
    simpl in *. injection Est as _ <-.
    destruct rl as [u'|m']; simpl in E; injection E as <- <-;
    exists (Lm ++ L), (min k n), ns; simpl;
      (split; [rewrite Hl, app_assoc; reflexivity|]);
      unfold page_events, page_writes in *; rewrite !omap_app, Qe, Qw; simpl;
      (split; [rewrite He, take_seq; reflexivity|]); (split; [lia|]);
      (split; [exact Hs|]); (split; [exact Hw|]); rewrite Ht'; exact Ht.
  - injection E as <- <-. injection Est as _ <-. exists Lm, 0%nat, []. simpl.
    split; [reflexivity|]. split; [exact Qe|]. split; [lia|]. split; [apply sublist_nil_l|].
    rewrite Qw. split; [constructor | exact Ht].
Qed.

Lemma fs_unlink_removes (p : path) (f : fsys) (l : list event) f' l' :
  fs_unlink p (f, l) = (Ok tt, (f', l')) -> fs_files f' !! p = None.
Proof.
  unfold fs_unlink. cbv [bind log_ev]. simpl. repeat case_match; intros; simplify_eq.
  simpl. apply lookup_delete_eq.
Qed.

Lemma for_each_unlink_removes (g : string -> path) (ns : list string) (f : fsys) (l : list event) f' l' :
  for_each ns (fun n => fs_unlink (g n)) (f, l) = (Ok tt, (f', l')) ->
  forall n, n ∈ ns -> fs_files f' !! g n = None.
Proof.
  revert f l. induction ns as [|x ns IH]; intros f l E n Hn; [apply elem_of_nil in Hn; contradiction|].
  simpl in E. unfold bind in E.
  destruct (fs_unlink (g x) (f, l)) as [[u|m] [f2 l2]] eqn:E1; [|discriminate].
  destruct u. apply elem_of_cons in Hn as [<-|Hn]; [|exact (IH _ _ E n Hn)].
  destruct (decide (Exists (fun y => g y = g n) ns)) as [Hex|Hno].
  - apply Exists_exists in Hex as (y & Hy & Hg).
    rewrite <- Hg. exact (IH _ _ E y Hy).
  - destruct (for_each_unlink_frame g ns f2 l2 _ _ _ E) as (_ & _ & Hfr).
    rewrite Hfr; [exact (fs_unlink_removes _ _ _ _ _ E1)|].
    intros y Hy Heq. apply Hno. apply Exists_exists. exists y.
    split; [exact Hy | symmetry; exact Heq].
Qed.

Lemma cleanDirectoryImages_clears (d : string) (f0 : fsys) (l0 : list event) f1 l1 :
  fs_wf f0 -> cleanDirectoryImages d (f0, l0) = (Ok tt, (f1, l1)) ->
  forall q, fs_files f1 !! (path_join (outputDir config) d ++ [q]) = None.
Proof.
  intros Hwf E q. pose proof Hwf as (_ & Hpar & _ & Hroot).
  unfold cleanDirectoryImages in E.
  remember (path_join (outputDir config) d) as dirPath eqn:Hdp.
  cbv [catch bind ret] in E. unfold fs_access in E. cbv [bind log_ev] in E. simpl in E.
  destruct (exists_path f0 dirPath) eqn:Ex; simpl in E.
  - rewrite fs_readdir_run in E. destruct (bool_decide (dirPath ∈ fs_dirs f0)); simpl in E;
      [|discriminate].
    destruct (for_each _ _ _) as [[u|m] [f2 l2]] eqn:El; simpl in E; [|discriminate].
    injection E as -> <- <-.
    destruct (decide (q ∈ dir_entries f0 dirPath)) as [Hq|Hq].
    + rewrite <- (path_join_seg dirPath q) by (eapply fs_wf_entry_seg; eassumption).
      exact (for_each_unlink_removes (path_join dirPath) _ _ _ _ _ El q Hq).
    + destruct (for_each_unlink_frame (path_join dirPath) _ _ _ _ _ _ El) as (_ & _ & Hfr).
      rewrite Hfr.
      * apply not_elem_of_dom. intros Hin. apply Hq, dir_entries_spec. left; exact Hin.
      * intros n Hn Heq. rewrite path_join_seg in Heq by (eapply fs_wf_entry_seg; eassumption).
        apply app_inj_tail in Heq as [_ ->]. contradiction.
  - injection E as <- <-. apply not_elem_of_dom. intros Hin.
    unfold exists_path in Ex. apply orb_false_iff in Ex as [E1 E2].
    apply bool_decide_eq_false in E2.
    destruct (Hpar dirPath q (or_introl Hin)) as [Hnil|Hdir]; [subst dirPath; rewrite Hnil in E2|];
      contradiction.
Qed.

Lemma StronglySorted_seq (a n : nat) : StronglySorted lt (seq a n).
Proof.
  revert a. induction n as [|n IH]; intros a; simpl; constructor; [apply IH|].
  apply Forall_forall. intros y Hy. apply list_elem_of_In, in_seq in Hy. lia.
Qed.

Lemma sublist_StronglySorted (ns xs : list nat) :
  ns `sublist_of` xs -> StronglySorted lt xs -> StronglySorted lt ns.
Proof.
  induction 1 as [|x l1 l2 H IH|x l1 l2 H IH]; intros Hs; [constructor| |].
  - apply StronglySorted_inv in Hs as [Hs Hf]. constructor; [apply IH, Hs|].
    rewrite List.Forall_forall in Hf |- *. intros y Hy. apply Hf.
    apply list_elem_of_In. eapply elem_of_sublist; [apply list_elem_of_In, Hy | exact H].
  - apply StronglySorted_inv in Hs as [Hs _]. apply IH, Hs.
Qed.

Lemma quiet_no_pages (ev : env) (dir : path) (N : nat) (L : list event) :
  quiet L -> exists k ns, page_events L = seq 1 k /\ (k <= N)%nat /\
    ns `sublist_of` seq 1 N /\ StronglySorted lt ns /\ Forall2 (page_written ev dir N) ns (page_writes L).
Proof.
  intros [He Hw]. exists 0%nat, []. rewrite He, Hw. split; [reflexivity|]. split; [lia|].
  split; [apply sublist_nil_l|]. split; constructor.
Qed.

Lemma bind_run_ok {S A B} (c : ST S A) (k : A -> ST S B) (s s1 : S) (a : A) :
  c s = (Ok a, s1) -> bind c k s = k a s1.
Proof. intros E. unfold bind. rewrite E. reflexivity. Qed.

Lemma catch_run_ok {S A} (c : ST S A) (h : string -> ST S A) (s s1 : S) (a : A) :
  c s = (Ok a, s1) -> catch c h s = (Ok a, s1).
Proof. intros E. unfold catch. rewrite E. reflexivity. Qed.

Lemma catch_modify_ok (c : PM unit) (g : string -> job -> job) (s : pstate) :
  exists s', catch c (fun m => modify_job (g m)) s = (Ok tt, s').
Proof. unfold catch. destruct (c s) as [[[]|m] s1]; eexists; reflexivity. Qed.

Lemma convert_page_ok (ev : env) (dir : path) (N x : nat) (s : pstate) :
  get_page ev x = Ok tt -> prepare_canvas ev x = Ok tt ->
  exists s', convert_page ev dir N x s = (Ok tt, s').
Proof.
  intros Hg Hp. unfold convert_page.
  cbv [bind modify_job await_ext snapshot lift_fs lift_res log_ev]. rewrite Hg, Hp.
  cbv beta iota zeta.
  match goal with |- exists s', catch ?c ?h ?st = _ =>
    unfold catch; destruct (c st) as [[[]|m] s1]; eexists; reflexivity end.
Qed.

Lemma pages_loop_ok (ev : env) (dir : path) (N : nat) (xs : list nat) (s : pstate) :
  (forall x, x ∈ xs -> get_page ev x = Ok tt /\ prepare_canvas ev x = Ok tt) ->
  exists s', for_each xs (convert_page ev dir N) s = (Ok tt, s').
Proof.
  revert s. induction xs as [|x xs IH]; intros s Hx; simpl; [eexists; reflexivity|].
  destruct (Hx x (proj2 (elem_of_cons _ _ _) (or_introl eq_refl))) as [Hg Hp].
  destruct (convert_page_ok ev dir N x s Hg Hp) as [s1 E1].
  rewrite (bind_run_ok _ _ _ _ _ E1). apply IH. intros y Hy. apply Hx. apply elem_of_cons. right; exact Hy.
Qed.

Lemma convert_pages_result (ev : env) (d : dirid) (n : nat) (s s' : pstate) (r : res string) :
  convert_pages ev d n s = (r, s') ->
  match r with
  | Ok a => a = path_str (path_join (outputDir config) (dirid_to_string d)) /\ completed_as ev a s'
  | Throw _ => True
  end.
Proof.
  intros E. unfold convert_pages in E.
  cbv [bind await_fs snapshot lift_fs set_sizes get_sizes modify_job ret] in E. simpl in E.
  match type of E with context [fs_mkdir_recursive ?p ?st] =>
    destruct (fs_mkdir_recursive p st) as [rm [fm lm]]
  end.
  destruct rm as [u|m]; simpl in E; [|injection E as <- <-; exact I].
  match type of E with context [for_each ?xs ?b ?st] => destruct (for_each xs b st) as [rl sl] end.
  destruct rl as [u'|m']; simpl in E; injection E as <- <-; [|exact I].
  split; [reflexivity|]. eexists. reflexivity.
Qed.

Lemma convertPDFToImages_result (ev : env) (p : string) (d : dirid) (s s' : pstate) (r : res string) :
  convertPDFToImages ev p d s = (r, s') ->
  match r with
  | Ok a => a = path_str (path_join (outputDir config) (dirid_to_string d)) /\ completed_as ev a s'
  | Throw m => exists j0, p_job s' = fail_job m (now ev) j0
  end.
Proof.
  intros E. unfold convertPDFToImages, catch in E.
  destruct (bind _ _ s) as [[a|m] s1] eqn:E1.
  - injection E as <- <-. unfold bind in E1. destruct (convert_open ev p d s) as [[n|m] s2].
    + exact (convert_pages_result _ _ _ _ _ _ E1).
    + discriminate.
  - cbv [bind modify_job throw] in E. injection E as <- <-. eexists. reflexivity.
Qed.

Lemma convert_pages_completes (ev : env) (d : dirid) (n : nat) (s : pstate) :
  fst (fs_mkdir_recursive (path_join (outputDir config) (dirid_to_string d))
         (p_others s (length (p_obs s)) (p_fs s), p_log s)) = Ok tt ->
  (forall x, (1 <= x <= n)%nat -> get_page ev x = Ok tt /\ prepare_canvas ev x = Ok tt) ->
  exists s', convert_pages ev d n s = (Ok (path_str (path_join (outputDir config) (dirid_to_string d))), s').
Proof.
  intros Hm Hx. unfold convert_pages.
  remember (path_join (outputDir config) (dirid_to_string d)) as dir eqn:Hdir.
  destruct (fs_mkdir_recursive dir
              (p_others s (length (p_obs s)) (p_fs s), p_log s)) as [rm [fm lm]] eqn:Em.
  simpl in Hm. subst rm.
  cbv [bind await_fs snapshot lift_fs set_sizes get_sizes modify_job ret]. simpl. rewrite Em. simpl.
  match goal with |- context [for_each ?xs ?b ?st] =>
    destruct (pages_loop_ok ev dir n xs st) as [sl ->]
  end.
  - intros x Hin. apply Hx. apply list_elem_of_In, in_seq in Hin. lia.
  - simpl. eexists. reflexivity.
Qed.

Lemma convert_page_sizes_fail (ev : env) (dir : path) (N x : nat) (s s' : pstate) (r : res unit) (m : string) :
  render_page ev x (raw_mime (to_lower (imageFormat config))) = Throw m ->
  convert_page ev dir N x s = (r, s') -> p_orig s' = p_orig s /\ p_comp s' = p_comp s.
Proof.
  intros Hr E.
  cbv [convert_page bind catch modify_job await_ext snapshot lift_fs lift_res log_ev] in E.
  rewrite Hr in E. repeat case_match; simplify_eq; simpl; auto.
Qed.

Lemma pages_loop_sizes_fail (ev : env) (dir : path) (N : nat) (xs : list nat) (s s' : pstate) (r : res unit) :
  render_fails ev ->
  for_each xs (convert_page ev dir N) s = (r, s') -> p_orig s' = p_orig s /\ p_comp s' = p_comp s.
Proof.
  intros Hf. revert s. induction xs as [|x xs IH]; intros s E; simpl in E.
  - cbv [ret] in E. simplify_eq. auto.
  - unfold bind in E. destruct (Hf x) as [m Hr].
    destruct (convert_page ev dir N x s) as [r1 s1] eqn:E1.
    destruct (convert_page_sizes_fail _ _ _ _ _ _ _ _ Hr E1) as [H1 H2].
    destruct r1 as [[]|m1].
    + destruct (IH s1 E) as [H3 H4]. split; congruence.
    + simplify_eq. auto.
Qed.

Lemma convert_pages_sizes_fail (ev : env) (d : dirid) (n : nat) (s s' : pstate) (a : string) :
  render_fails ev ->
  convert_pages ev d n s = (Ok a, s') -> p_orig s' = 0%nat /\ p_comp s' = 0%nat.
Proof.
  intros Hf E. unfold convert_pages in E.
  cbv [bind await_fs snapshot lift_fs set_sizes get_sizes modify_job ret] in E. simpl in E.
  match type of E with context [fs_mkdir_recursive ?p ?st] =>
    destruct (fs_mkdir_recursive p st) as [rm [fm lm]]
  end.
  destruct rm as [u|m]; simpl in E; [|discriminate].
  match type of E with context [for_each ?xs ?b ?st] => destruct (for_each xs b st) as [rl sl] eqn:El end.
  destruct (pages_loop_sizes_fail _ _ _ _ _ _ _ Hf El) as [H1 H2]. simpl in H1, H2.
  destruct rl as [u'|m']; simpl in E; [|discriminate]. injection E as _ <-. simpl. auto.
Qed.

Lemma convertPDFToImages_sizes_fail (ev : env) (p : string) (d : dirid) (s s' : pstate) (a : string) :
  render_fails ev ->
  convertPDFToImages ev p d s = (Ok a, s') -> p_orig s' = 0%nat /\ p_comp s' = 0%nat.
Proof.
  intros Hf E. unfold convertPDFToImages, catch in E.
  destruct (bind _ _ s) as [[a'|m] s1] eqn:E1.
  - injection E as <- <-. unfold bind in E1. destruct (convert_open ev p d s) as [[n|m] s2].
    + exact (convert_pages_sizes_fail _ _ _ _ _ _ Hf E1).
    + discriminate.
  - cbv [bind modify_job throw] in E. discriminate.
Qed.

Lemma complete_job_status a t q j : status (complete_job a t q j) = Completed.
Proof. reflexivity. Qed.

Lemma fail_job_status m t j : status (fail_job m t j) = Failed.
Proof. reflexivity. Qed.

Lemma seg_okb_sound (s : string) : seg_okb s = true -> seg_ok s.
Proof.
  unfold seg_okb, seg_ok. rewrite !andb_true_iff, !negb_true_iff.
  intros [[[H1 H2] H3] H4]. apply String.eqb_neq in H1, H2, H3.
  split; [exact H1|]. split; [exact H2|]. split; [exact H3|].
  intros Hin. apply Bool.not_true_iff_false in H4. apply H4, existsb_exists.
  exists "/"%char. split; [exact Hin | apply Ascii.eqb_refl].
Qed.

Lemma fs_wfb_sound (f : fsys) : fs_wfb f = true -> fs_wf f.
Proof.
  unfold fs_wfb. rewrite !andb_true_iff. intros [[[H1 H2] H3] H4].
  assert (Hent : forall q, q ∈ dom (fs_files f) \/ q ∈ fs_dirs f -> In q (fs_entries f)).
  { intros q Hq. apply list_elem_of_In. unfold fs_entries. apply elem_of_app.
    destruct Hq; [left|right]; apply elem_of_elements; assumption. }
  split; [|split; [|split]].
  - intros q Hq. rewrite List.forallb_forall in H1. specialize (H1 q (Hent q Hq)).
    rewrite List.forallb_forall in H1. apply List.Forall_forall. intros x Hx.
    apply seg_okb_sound, H1, Hx.
  - intros q n Hq. rewrite List.forallb_forall in H2. specialize (H2 _ (Hent _ Hq)).
    rewrite removelast_last in H2. apply orb_true_iff in H2 as [H2|H2];
      apply bool_decide_eq_true in H2; auto.
  - intros q Hq. rewrite List.forallb_forall in H3.
    assert (Hq' : In q (elements (dom (fs_files f)))) by
      (apply list_elem_of_In, elem_of_elements, Hq).
    specialize (H3 q Hq'). apply negb_true_iff, bool_decide_eq_false in H3. exact H3.
  - apply bool_decide_eq_true in H4. exact H4.
Qed.

Lemma fs_demo_wf : fs_wf fs_demo.
Proof. apply fs_wfb_sound. vm_compute. reflexivity. Qed.

Lemma world_demo_reachable : reachable world_demo.
Proof.
  unfold reachable. eapply rtc_l; [|apply rtc_refl].
  unfold world_demo.
  eapply (StepUploadRun world_init (Ok tt) req_demo _ 1%Z job_demo);
    reflexivity.
Qed.

Lemma records_steps (w w' : world) :
  rtc step w w' -> winv w ->
  forall k j, conversionJobs (w_tracker w) !! k = Some j ->
  exists j', conversionJobs (w_tracker w') !! k = Some j' /\ job_step j j'.
Proof.
  induction 1 as [x | x y z Hxy Hyz IH]; intros Hx k j Hj.
  - exists j. split; [exact Hj|]. apply job_step_refl. destruct Hx as (_ & Hk & _). apply (Hk _ _ Hj).
  - destruct (winv_step _ _ Hx Hxy) as [Hy [Hr _]].
    destruct (Hr _ _ Hj) as (j1 & Hj1 & Hs1).
    destruct (IH Hy _ _ Hj1) as (j2 & Hj2 & Hs2).
    exists j2. split; [exact Hj2 | eapply job_step_trans; eassumption].
Qed.

Lemma records_new (w w' : world) :
  reachable w -> step w w' ->
  forall k j', conversionJobs (w_tracker w) !! k = None ->
  conversionJobs (w_tracker w') !! k = Some j' -> fresh_job j'.
Proof.
  intros Hw Hs. destruct (winv_step _ _ (winv_reachable _ Hw) Hs) as [_ [_ Hn]]. exact Hn.
Qed.

Lemma world_demo_step : step world_init world_demo.
Proof.
  unfold world_demo.
  eapply (StepUploadRun world_init (Ok tt) req_demo _ 1%Z job_demo); reflexivity.
Qed.

Lemma fs_demo_dirs_short : forallb (fun q => length q <=? 3)%nat (elements (fs_dirs fs_demo)) = true.
Proof. vm_compute. reflexivity. Qed.

Lemma pipeline_step_rtc (w : world) (k : Z) : rtc step w (pipeline_step w k).
Proof.
  unfold pipeline_step. destruct (w_running w !! k) as [[|j js]|] eqn:E; [apply rtc_refl| |apply rtc_refl].
  apply rtc_once. apply StepPipeline. exact E.
Qed.

Lemma pipeline_steps_rtc (n : nat) (w : world) (k : Z) : rtc step w (pipeline_steps n w k).
Proof.
  revert w. induction n as [|n IH]; intros w; simpl; [apply rtc_refl|].
  etrans; [apply pipeline_step_rtc | apply IH].
Qed.

Lemma world_ok_step : step world_init world_ok.
Proof.
  unfold world_ok.
  eapply (StepUploadRun world_init (Ok tt) req_demo _ 1%Z job_demo); reflexivity.
Qed.

Lemma world_ok_mid_reachable : reachable world_ok_mid.
Proof.
  unfold reachable, world_ok_mid. eapply rtc_l; [apply world_ok_step | apply pipeline_steps_rtc].
Qed.

Lemma world_ok_mid_end : rtc step world_ok_mid world_ok_end.
Proof. apply pipeline_steps_rtc. Qed.

Lemma world_done_reachable : reachable world_done.
Proof.
  unfold reachable, world_done. etrans; [apply world_demo_reachable | apply pipeline_steps_rtc].
Qed.

Lemma world_late_step : step world_done world_late.
Proof.
  unfold world_late.
  eapply (StepUploadRun world_done (Ok tt) req_second _ 2%Z); vm_compute; reflexivity.
Qed.

Lemma world_demo_done : rtc step world_demo world_done.
Proof. unfold world_done. apply pipeline_steps_rtc. Qed.

Lemma world_demo_late : rtc step world_demo world_late.
Proof. eapply rtc_r; [apply world_demo_done | apply world_late_step]. Qed.

(* ================================================================== *)
(** * The claims *)

(** C1, as the code behaves: when a run ends with status completed, its
    [compressionRatio] is [(totalOriginalSize / totalCompressedSize).toFixed(2)]
    computed with no divide-by-zero guard; in particular, when every page
    render fails (no page processed, both totals 0) the run still completes
    and the ratio is the string ["NaN"]. *)
Theorem compressionRatio_unguarded (ev : env) (f : fsys) (others : nat -> fsys -> fsys) (j : job) :
  let '(r, s') := run_pipeline ev f others j in
  (status (p_job s') = Completed ->
     compressionRatio (p_job s') =
       Some (toFixed2 (js_div (js_of_nat (p_orig s')) (js_of_nat (p_comp s'))))) /\
  (render_fails ev -> status (p_job s') = Completed -> compressionRatio (p_job s') = Some FxNaN).
Proof.
  destruct (run_pipeline ev f others j) as [r s'] eqn:E.
  pose proof (convertPDFToImages_result _ _ _ _ _ _ E) as H.
  destruct r as [a|m].
  - destruct H as [_ [j0 Hj]]. rewrite Hj. split.
    + intros _. reflexivity.
    + intros Hf _. destruct (convertPDFToImages_sizes_fail _ _ _ _ _ _ Hf E) as [-> ->].
      reflexivity.
  - destruct H as [j0 Hj]. rewrite Hj. split; intros; discriminate.
Qed.

(* The C1 statement on the all-renders-fail run. *)
Lemma compressionRatio_unguarded_witness :
  render_fails ev_fail /\
  compressionRatio (p_job (snd (run_pipeline ev_fail fs_demo no_others job_demo))) = Some FxNaN.
Proof.
  split; [intros x; eexists; reflexivity|].
  generalize (compressionRatio_unguarded ev_fail fs_demo no_others job_demo).
  destruct (run_pipeline ev_fail fs_demo no_others job_demo) as [r s'] eqn:E.
  intros [_ H]. apply H; [intros x; eexists; reflexivity|].
  change s' with (snd (r, s')). rewrite <- E. vm_compute. reflexivity.
Defined.

(** C1, a run with zero processed pages: a two-page document whose pages
    both fail to render completes, with [processedPages = 0] and the ratio
    ["NaN"] (0/0), not a guarded value. *)
Lemma compressionRatio_nan_no_page :
  let '(r, s') := run_pipeline ev_fail fs_demo no_others job_demo in
  r = Ok (path_str (outputDir config ++ ["42"])) /\
  status (p_job s') = Completed /\ processedPages (p_job s') = 0%nat /\
  totalPages (p_job s') = 2%nat /\
  errors (p_job s') = Some ["Error on page 1: render failed"; "Error on page 2: render failed"] /\
  compressionRatio (p_job s') = Some FxNaN.
Proof. vm_compute. repeat split. Qed.

(** C2, as the code behaves: [POST /api/maintenance/cleanup] always answers
    200, because [cleanupDirectories] logs and swallows every readdir or
    unlink error; it removes no directory and deletes no file outside the
    input directory (so none in the output directory); and when none of
    its deletes can throw (no entry of the input directory is a directory
    or a read-only file), every file of the input directory is deleted. *)
Theorem maintenance_cleanup_spec (f : fsys) (l : list event) :
  fs_wf f ->
  let '(r, (f', _)) := maintenance_cleanup (f, l) in
  r = Ok (mkResp 200 (BMessage "All temporary directories cleaned successfully")) /\
  fs_dirs f' = fs_dirs f /\
  (forall q, (forall n, q <> inputDir config ++ [n]) -> fs_files f' !! q = fs_files f !! q) /\
  (forall q, take (length (outputDir config)) q = outputDir config ->
             fs_files f' !! q = fs_files f !! q) /\
  ((forall n, (inputDir config ++ [n] ∉ fs_dirs f) /\ (inputDir config ++ [n] ∉ fs_readonly f)) ->
   forall n, fs_files f' !! (inputDir config ++ [n]) = None).
Proof.
  intros Hwf.
  pose proof (cleanupDirectories_ok (f, l)) as Hok.
  pose proof (cleanupDirectories_all f l Hwf) as Hall.
  unfold maintenance_cleanup, catch, bind at 1.
  destruct (cleanupDirectories (f, l)) as [r [f' l']] eqn:E. simpl in Hok, Hall. subst r.
  unfold ret. simpl.
  apply cleanupDirectories_frame in E as [Ed Ef].
  assert (Hframe : forall q, (forall n, q <> inputDir config ++ [n]) ->
                             fs_files f' !! q = fs_files f !! q).
  { intros q Hq. apply Ef. intros n Hn. rewrite path_join_seg by (eapply fs_wf_entry_seg; eassumption).
    apply Hq. }
  split; [reflexivity|]. split; [exact Ed|]. split; [exact Hframe|]. split; [|exact Hall].
  intros q Hq. apply Hframe. intros n ->. simpl in Hq. discriminate.
Qed.

(* The C2 statement on a well-formed file system with one input PDF. *)
Lemma maintenance_cleanup_spec_witness :
  fs_wf fs_demo /\
  fst (maintenance_cleanup (fs_demo, [])) =
    Ok (mkResp 200 (BMessage "All temporary directories cleaned successfully")) /\
  fs_files (fst (snd (maintenance_cleanup (fs_demo, [])))) !! (inputDir config ++ ["a.pdf"]) = None.
Proof.
  split; [apply fs_wfb_sound; vm_compute; reflexivity|].
  generalize (maintenance_cleanup_spec fs_demo [] (fs_wfb_sound fs_demo ltac:(vm_compute; reflexivity))).
  destruct (maintenance_cleanup (fs_demo, [])) as [r [f' l']]. simpl.
  intros (Hr & _ & _ & _ & Hall). split; [exact Hr|]. apply Hall.
  intros n. split.
  - intros Hin. pose proof fs_demo_dirs_short as Hs. rewrite List.forallb_forall in Hs.
    specialize (Hs _ (proj1 (list_elem_of_In _ _) (proj2 (elem_of_elements _ _) Hin))).
    vm_compute in Hs. discriminate.
  - simpl. apply not_elem_of_empty.
Defined.

(* C2, a throwing delete: the input directory holds a read-only PDF, its
   unlink throws, and the route still answers 200 (the file is left). *)
Lemma maintenance_cleanup_delete_throws_200 :
  (exists m, fst (fs_unlink (inputDir config ++ ["a.pdf"]) (fs_locked_pdf, [])) = Throw m) /\
  fst (maintenance_cleanup (fs_locked_pdf, [])) =
    Ok (mkResp 200 (BMessage "All temporary directories cleaned successfully")) /\
  snd (snd (maintenance_cleanup (fs_locked_pdf, []))) =
    [EvReaddir (inputDir config); EvUnlink (inputDir config ++ ["a.pdf"])].
Proof.
  split; [eexists; vm_compute; reflexivity|].
  split; vm_compute; reflexivity.
Qed.

(** ** The image optimizer *)

(** C3: for every input buffer, page numbers and format, [optimizeImage]
    returns normally, leaves every state (the job record included)
    untouched, and returns the encoder's output, or the input buffer
    itself when the encoder throws. *)
Theorem optimizeImage_never_throws {S} (ev : env) (imageBuffer : bytes)
    (pageNum totalPages : nat) (format : string) (s : S) :
  exists out,
    optimizeImage ev imageBuffer pageNum totalPages format s = (Ok out, s) /\
    (forall m, sharp_run ev (sharp_ops format) imageBuffer = Throw m -> out = imageBuffer) /\
    (forall b, sharp_run ev (sharp_ops format) imageBuffer = Ok b -> out = b).
Proof.
  unfold optimizeImage, catch, bind, lift_res, ret.
  destruct (sharp_run ev (sharp_ops format) imageBuffer) as [b | m] eqn:E.
  - exists b. split; [reflexivity | split; intros; congruence].
  - exists imageBuffer. split; [reflexivity | split; intros; congruence].
Qed.

(** C4: along every sequence of service steps (uploads, status queries and
    the steps of the running pipelines, including their failure handling)
    from a reachable state, every record's status only moves forward in the
    order pending, processing, then completed or failed, and a completed
    or failed record keeps its status; a record created by a step is
    pending. *)
Theorem job_status_forward :
  (forall w w', reachable w -> rtc step w w' ->
     forall k j, conversionJobs (w_tracker w) !! k = Some j ->
     exists j', conversionJobs (w_tracker w') !! k = Some j' /\
       status_le (status j) (status j') /\
       (status j = Completed \/ status j = Failed -> status j' = status j)) /\
  (forall w w', reachable w -> step w w' ->
     forall k j', conversionJobs (w_tracker w) !! k = None ->
     conversionJobs (w_tracker w') !! k = Some j' -> status j' = Pending).
Proof.
  split.
  - intros w w' Hw Hs k j Hj.
    destruct (records_steps _ _ Hs (winv_reachable _ Hw) _ _ Hj) as (j' & Hj' & (_ & _ & Hle & _)).
    exists j'. split; [exact Hj'|]. split; [exact Hle|].
    unfold status_le in Hle. intros [Ht|Ht]; rewrite Ht in Hle |- *;
      destruct Hle as [<- | [[? _] | [? _]]]; congruence.
  - intros w w' Hw Hs k j' Hn Hj'. apply (records_new _ _ Hw Hs _ _ Hn Hj').
Qed.

(* The C4 statement along a whole run of the demo pipeline and a second
   upload: the pending record ends completed and stays so, and the new
   record is pending. *)
Lemma job_status_forward_witness :
  status (record1 world_done) = Completed /\
  (exists j', conversionJobs (w_tracker world_late) !! 1%Z = Some j' /\
     status_le (status job_demo) (status j') /\
     (status job_demo = Completed \/ status job_demo = Failed -> status j' = status job_demo)) /\
  (exists j', conversionJobs (w_tracker world_late) !! 1%Z = Some j' /\
     status_le (status (record1 world_done)) (status j') /\
     (status (record1 world_done) = Completed \/ status (record1 world_done) = Failed ->
      status j' = status (record1 world_done))) /\
  status (default job_demo (conversionJobs (w_tracker world_late) !! 2%Z)) = Pending.
Proof.
  split; [vm_compute; reflexivity|]. split; [|split].
  - apply (proj1 job_status_forward world_demo world_late world_demo_reachable world_demo_late 1%Z job_demo).
    vm_compute. reflexivity.
  - apply (proj1 job_status_forward world_done world_late world_done_reachable
             (rtc_once _ _ world_late_step) 1%Z (record1 world_done)).
    vm_compute. reflexivity.
  - apply (proj2 job_status_forward world_done world_late world_done_reachable world_late_step 2%Z);
      vm_compute; reflexivity.
Defined.

(** C5: along every sequence of service steps from a reachable state,
    a record's [processedPages] never decreases and its [totalPages] only
    changes while it is 0; in every reachable state [processedPages <=
    totalPages]; a record created by a step has [processedPages = 0] and
    [totalPages = 0]; and the values a pipeline publishes for a record with
    [totalPages = 0] have [totalPages = 0] up to some point and from then
    on all have the page count the document loader returned: [totalPages]
    is only set when the document is opened. *)
Theorem processedPages_monotone :
  (forall w w', reachable w -> rtc step w w' ->
     forall k j, conversionJobs (w_tracker w) !! k = Some j ->
     exists j', conversionJobs (w_tracker w') !! k = Some j' /\
       (processedPages j <= processedPages j')%nat /\
       (totalPages j = 0%nat \/ totalPages j' = totalPages j)) /\
  (forall w k j, reachable w -> conversionJobs (w_tracker w) !! k = Some j ->
     (processedPages j <= totalPages j)%nat) /\
  (forall w w', reachable w -> step w w' ->
     forall k j', conversionJobs (w_tracker w) !! k = None ->
     conversionJobs (w_tracker w') !! k = Some j' ->
     processedPages j' = 0%nat /\ totalPages j' = 0%nat) /\
  (forall ev f others j, totalPages j = 0%nat ->
     exists pre post, pipeline_trace ev f others j = pre ++ post /\
       Forall (fun j' => totalPages j' = 0%nat) pre /\
       (post = [] \/ exists n data, get_document ev data = Ok n /\
                                    Forall (fun j' => totalPages j' = n) post)).
Proof.
  split; [|split; [|split]].
  - intros w w' Hw Hs k j Hj.
    destruct (records_steps _ _ Hs (winv_reachable _ Hw) _ _ Hj) as (j' & Hj' & (_ & _ & _ & Hp & Ht)).
    exists j'. auto.
  - intros w k j Hw Hj. destruct (winv_reachable _ Hw) as (_ & Hk & _). apply (Hk _ _ Hj).
  - intros w w' Hw Hs k j' Hn Hj'. destruct (records_new _ _ Hw Hs _ _ Hn Hj') as (_ & Hp & Ht & _).
    auto.
  - intros ev f others j Hj. exact (tp_chain_split ev j _ (pipeline_trace_tp ev f others j Hj) Hj).
Qed.

(* The C5 statement along the run of a pipeline whose pages all render:
   from one converted page to two, at the end of the run, at the upload,
   and for the values it publishes (4 at [totalPages = 0], then 10 at 2). *)
Lemma processedPages_monotone_witness :
  processedPages (record1 world_ok_mid) = 1%nat /\ processedPages (record1 world_ok_end) = 2%nat /\
  (exists j', conversionJobs (w_tracker world_ok_end) !! 1%Z = Some j' /\
     (processedPages (record1 world_ok_mid) <= processedPages j')%nat /\
     (totalPages (record1 world_ok_mid) = 0%nat \/ totalPages j' = totalPages (record1 world_ok_mid))) /\
  (processedPages (record1 world_ok_end) <= totalPages (record1 world_ok_end))%nat /\
  (processedPages job_demo = 0%nat /\ totalPages job_demo = 0%nat) /\
  (exists pre post, pipeline_trace ev_ok fs_demo no_others job_demo = pre ++ post /\
     Forall (fun j' => totalPages j' = 0%nat) pre /\
     (post = [] \/ exists n data, get_document ev_ok data = Ok n /\
                                  Forall (fun j' => totalPages j' = n) post)).
Proof.
  split; [vm_compute; reflexivity|]. split; [vm_compute; reflexivity|].
  split; [|split; [|split]].
  - apply (proj1 processedPages_monotone world_ok_mid world_ok_end world_ok_mid_reachable
             world_ok_mid_end 1%Z (record1 world_ok_mid)).
    vm_compute. reflexivity.
  - apply (proj1 (proj2 processedPages_monotone) world_ok_end 1%Z (record1 world_ok_end)).
    + unfold reachable. etrans; [apply world_ok_mid_reachable | apply world_ok_mid_end].
    + vm_compute. reflexivity.
  - apply (proj1 (proj2 (proj2 processedPages_monotone)) world_init world_ok (rtc_refl _ _) world_ok_step 1%Z job_demo);
      reflexivity.
  - apply (proj2 (proj2 (proj2 processedPages_monotone)) ev_ok fs_demo no_others job_demo).
    reflexivity.
Defined.

(** C6: in every reachable state, every record has an [outputPath] if and
    only if its status is completed. *)
Theorem outputPath_iff_completed (w : world) (k : Z) (j : job) :
  reachable w -> conversionJobs (w_tracker w) !! k = Some j ->
  (is_Some (outputPath j) <-> status j = Completed).
Proof.
  intros Hw Hj. destruct (winv_reachable _ Hw) as (_ & Hk & _). apply (Hk _ _ Hj).
Qed.

(* The C6 statement after one upload. *)
Lemma outputPath_iff_completed_witness :
  conversionJobs (w_tracker world_demo) !! 1%Z = Some job_demo /\
  (is_Some (outputPath job_demo) <-> status job_demo = Completed).
Proof.
  split; [reflexivity|].
  apply (outputPath_iff_completed world_demo 1%Z job_demo); [exact world_demo_reachable | reflexivity].
Defined.

(** C7: when a page's render throws, its iteration returns normally after
    appending the page's error message to [errors], leaving
    [processedPages] unchanged, so the loop goes on with the next page;
    and once the document is opened and its output directory created, a
    run whose pages can all be fetched completes, whatever their renders
    do, with status completed and progress 100. *)
Theorem page_failure_nonfatal :
  (forall ev dir N x s m,
     get_page ev x = Ok tt -> prepare_canvas ev x = Ok tt ->
     render_page ev x (raw_mime (to_lower (imageFormat config))) = Throw m ->
     exists s', convert_page ev dir N x s = (Ok tt, s') /\
       p_job s' = push_error (page_error_msg x m) (set_currentPage (Some x) (p_job s)) /\
       processedPages (p_job s') = processedPages (p_job s) /\
       errors (p_job s') = Some (default [] (errors (p_job s)) ++ [page_error_msg x m])) /\
  (forall ev p d s n s1,
     convert_open ev p d s = (Ok n, s1) ->
     fst (fs_mkdir_recursive (path_join (outputDir config) (dirid_to_string d))
            (p_others s1 (length (p_obs s1)) (p_fs s1), p_log s1)) = Ok tt ->
     (forall x, (1 <= x <= n)%nat -> get_page ev x = Ok tt /\ prepare_canvas ev x = Ok tt) ->
     exists s', convertPDFToImages ev p d s =
                  (Ok (path_str (path_join (outputDir config) (dirid_to_string d))), s') /\
       status (p_job s') = Completed /\ progress (p_job s') = js_of_Z 100).
Proof.
  split.
  - intros ev dir N x s m Hg Hp Hr.
    eexists. split.
    + cbv [convert_page bind catch modify_job await_ext snapshot lift_fs lift_res log_ev].
      rewrite Hg, Hp, Hr. reflexivity.
    + simpl. split; [reflexivity|]. split; reflexivity.
  - intros ev p d s n s1 Eo Hm Hx.
    destruct (convert_pages_completes ev d n s1 Hm Hx) as [s2 E2].
    exists s2. unfold convertPDFToImages.
    rewrite (catch_run_ok _ _ s s2 (path_str (path_join (outputDir config) (dirid_to_string d))));
      [| rewrite (bind_run_ok _ _ _ _ _ Eo); exact E2].
    split; [reflexivity|].
    destruct (convert_pages_result _ _ _ _ _ _ E2) as [_ [j0 ->]]. split; reflexivity.
Qed.

(* The C7 statement on the all-renders-fail environment. *)
Lemma page_failure_nonfatal_witness :
  (exists s', convert_page ev_fail (outputDir config ++ ["42"]) 2 1 s_demo = (Ok tt, s') /\
     p_job s' = push_error (page_error_msg 1 "render failed") (set_currentPage (Some 1%nat) (p_job s_demo)) /\
     processedPages (p_job s') = processedPages (p_job s_demo) /\
     errors (p_job s') = Some (default [] (errors (p_job s_demo)) ++ [page_error_msg 1 "render failed"])) /\
  (exists s', convertPDFToImages ev_fail demo_pdf (DirStr "42") s_demo =
                (Ok (path_str (path_join (outputDir config) (dirid_to_string (DirStr "42")))), s') /\
     status (p_job s') = Completed /\ progress (p_job s') = js_of_Z 100).
Proof.
  split.
  - apply (proj1 page_failure_nonfatal ev_fail _ 2 1 s_demo "render failed"); reflexivity.
  - apply (proj2 page_failure_nonfatal ev_fail demo_pdf (DirStr "42") s_demo 2
             (snd (convert_open ev_fail demo_pdf (DirStr "42") s_demo))).
    + vm_compute. reflexivity.
    + vm_compute. reflexivity.
    + intros x _. split; reflexivity.
Defined.

(** C8: a pipeline run first cleans the directory of [directoryId] under
    the output directory (rendering and writing nothing meanwhile; when the
    cleaning throws, the run fails with that error; when it succeeds, no
    file is left directly in that directory), then checks that the PDF
    exists (when it does not, the run throws a non-empty "PDF file not
    found" error, and the job is failed with it, before anything else is
    done), then fetches pages [1, 2, ..., k] in this order ([k <= totalPages])
    and writes, in strictly ascending page order, the optimized bytes of
    each successfully processed page [n] to
    [<outputDir>/<directoryId>/<n>.<format>]. *)
Theorem convertPDFToImages_order (ev : env) (f : fsys) (others : nat -> fsys -> fsys) (j : job) :
  let d := dirid_to_string (directoryId j) in
  let dirPath := path_join (outputDir config) d in
  let pdf := to_path (pdfPath j) in
  let '(r, s') := run_pipeline ev f others j in
  let '(rc, (f1, l1)) := cleanDirectoryImages d (others 0%nat f, []) in
  quiet l1 /\
  (forall m, rc = Throw m -> r = Throw m /\ status (p_job s') = Failed /\ p_log s' = l1) /\
  (rc = Ok tt -> fs_wf (others 0%nat f) -> forall q, fs_files f1 !! (dirPath ++ [q]) = None) /\
  (rc = Ok tt -> exists L, p_log s' = l1 ++ EvAccess pdf :: L) /\
  (rc = Ok tt -> exists_path (others 1%nat f1) pdf = false ->
     r = Throw (not_found_msg (pdfPath j)) /\ status (p_job s') = Failed /\
     error (p_job s') = Some (not_found_msg (pdfPath j)) /\ not_found_msg (pdfPath j) <> "" /\
     p_log s' = l1 ++ [EvAccess pdf]) /\
  (exists k ns, page_events (p_log s') = seq 1 k /\ (k <= totalPages (p_job s'))%nat /\
     ns `sublist_of` seq 1 (totalPages (p_job s')) /\ StronglySorted lt ns /\
     Forall2 (page_written ev dirPath (totalPages (p_job s'))) ns (page_writes (p_log s'))).
Proof.
  intros d dirPath pdf. subst d dirPath pdf.
  destruct (run_pipeline ev f others j) as [r s'] eqn:E. cbv beta iota.
  unfold run_pipeline, convertPDFToImages, convert_open in E.
  cbv [bind catch modify_job await_fs await_ext snapshot lift_fs lift_res ret throw] in E. simpl in E.
  destruct (cleanDirectoryImages (dirid_to_string (directoryId j)) (others 0%nat f, [])) as [rc [f1 l1]] eqn:Ec.
  destruct (cleanDirectoryImages_quiet _ _ _ _ _ _ Ec) as (L1 & -> & Q1). simpl.
  destruct rc as [[]|m]; simpl in E.
  2:{ injection E as <- <-. split; [exact Q1|]. split; [intros m' [= <-]; auto|].
      split; [discriminate|]. split; [discriminate|]. split; [discriminate|].
      apply quiet_no_pages, Q1. }
  split; [exact Q1|]. split; [discriminate|]. split; [intros _ Hwf; exact (cleanDirectoryImages_clears _ _ _ _ _ Hwf Ec)|].
  unfold fs_access in E. cbv [bind log_ev] in E. simpl in E.
  destruct (exists_path (others 1%nat f1) (to_path (pdfPath j))) eqn:Ea; simpl in E.
  2:{ injection E as <- <-. simpl. split; [intros _; exists []; reflexivity|].
      split; [intros _ _; split; [reflexivity|]; split; [reflexivity|]; split; [reflexivity|];
              split; [unfold not_found_msg; discriminate | reflexivity]|].
      apply quiet_no_pages. apply quiet_app; [exact Q1 | split; reflexivity]. }
  match type of E with context [fs_readFile ?p ?st] =>
    destruct (fs_readFile p st) as [rr [fr lr]] eqn:Er;
    destruct (fs_readFile_quiet _ _ _ _ _ _ Er) as (Lr & -> & Qr)
  end.
  simpl in E. destruct rr as [data|m]; simpl in E.
  2:{ injection E as <- <-. simpl. split; [intros _; exists Lr; rewrite <- app_assoc; reflexivity|].
      split; [intros _ Hf; congruence|].
      apply quiet_no_pages. repeat apply quiet_app; auto; split; reflexivity. }
  destruct (get_document ev data) as [n|m]; simpl in E.
  2:{ injection E as <- <-. simpl. split; [intros _; exists (Lr ++ [EvGetDocument]); rewrite <- !app_assoc; reflexivity|].
      split; [intros _ Hf; congruence|].
      apply quiet_no_pages. repeat apply quiet_app; auto; split; reflexivity. }
  match type of E with context [convert_pages ?ev ?d ?n ?st] =>
    destruct (convert_pages ev d n st) as [rp sp] eqn:Ep;
    destruct (convert_pages_log _ _ _ _ _ _ Ep eq_refl) as (L & k & ns & Hl & He & Hk & Hs & Hw & Ht)
  end.
  simpl in Hl. rewrite Hl in *.
  assert (Hpages : exists k ns, page_events ((((L1 ++ [EvAccess (to_path (pdfPath j))]) ++ Lr) ++ [EvGetDocument]) ++ L) = seq 1 k /\
            (k <= n)%nat /\ ns `sublist_of` seq 1 n /\ StronglySorted lt ns /\
            Forall2 (page_written ev (path_join (outputDir config) (dirid_to_string (directoryId j))) n) ns
              (page_writes ((((L1 ++ [EvAccess (to_path (pdfPath j))]) ++ Lr) ++ [EvGetDocument]) ++ L))).
  { exists k, ns. destruct Q1 as [Qe1 Qw1]. destruct Qr as [Qer Qwr].
    unfold page_events, page_writes in *. rewrite !omap_app. rewrite Qe1, Qw1, Qer, Qwr. simpl.
    split; [exact He|]. split; [exact Hk|]. split; [exact Hs|].
    split; [eapply sublist_StronglySorted; [exact Hs | apply StronglySorted_seq] | exact Hw]. }
  destruct rp as [a|m]; simpl in E; injection E as <- <-; simpl; rewrite ?Ht, ?Hl;
    (split; [intros _; exists (Lr ++ [EvGetDocument] ++ L); rewrite <- !app_assoc; reflexivity|]);
    (split; [intros _ Hf; congruence|]); exact Hpages.
Qed.

(** ** The status route *)

(** C9: [GET /api/jobs/:jobId] answers 404 with [{ error: 'Job not found' }]
    when the parsed id is not a key of the tracker, and otherwise 200 with
    exactly the twelve public fields of the record. *)
Theorem get_job_status_response (jobIdParam : string) (t : tracker) :
  (forall k, parseInt jobIdParam = Some k -> conversionJobs t !! k = None ->
     fst (get_job_status jobIdParam t) = Ok (mkResp 404 (BError "Job not found"))) /\
  (parseInt jobIdParam = None ->
     fst (get_job_status jobIdParam t) = Ok (mkResp 404 (BError "Job not found"))) /\
  (forall k j, parseInt jobIdParam = Some k -> conversionJobs t !! k = Some j ->
     fst (get_job_status jobIdParam t) =
       Ok (mkResp 200 (BJob (mkJobResponse (job_id j) (directoryId j) (status j)
             (progress j) (processedPages j) (totalPages j) (outputPath j)
             (startTime j) (endTime j) (error j) (errors j) (compressionRatio j))))).
Proof.
  unfold get_job_status.
  split; [|split]; intros *; [intros Hp Hk | intros Hp | intros Hp Hk];
    rewrite Hp; simpl; try rewrite Hk; reflexivity.
Qed.

(** C10: a status query leaves the tracker (every record included)
    unchanged, and its answer does not depend on the [pdfPath] held in
    the record. *)
Theorem get_job_status_read_only (jobIdParam : string) (t : tracker) :
  snd (get_job_status jobIdParam t) = t /\
  forall k j p,
    conversionJobs t !! k = Some j ->
    fst (get_job_status jobIdParam
           (mkTracker (<[k := set_pdfPath p j]> (conversionJobs t)) (jobCounter t))) =
    fst (get_job_status jobIdParam t).
Proof.
  split.
  - unfold get_job_status.
    destruct (match parseInt jobIdParam with Some k => conversionJobs t !! k | None => None end);
      reflexivity.
  - intros k j p Hk. unfold get_job_status. simpl.
    destruct (parseInt jobIdParam) as [k'|]; [|reflexivity].
    destruct (decide (k = k')) as [->|Hne].
    + rewrite lookup_insert_eq, Hk. reflexivity.
    + rewrite lookup_insert_ne by exact Hne.
      destruct (conversionJobs t !! k'); reflexivity.
Qed.


(* ================================================================== *)
(** * Further properties of the server *)

Lemma fs_mkdir_run (p : path) (f : fsys) (l : list event) :
  fs_mkdir_recursive p (f, l) =
    let '(r, f') := mkdirp_go p (path_prefixes p) f in (r, (f', l ++ [EvMkdir p])).
Proof. unfold fs_mkdir_recursive, bind, log_ev. simpl. destruct (mkdirp_go _ _ _); reflexivity. Qed.

Lemma mkdirp_go_spec (p : path) (qs : list path) (f : fsys) :
  let '(r, f') := mkdirp_go p qs f in
  fs_files f' = fs_files f /\ fs_readonly f' = fs_readonly f /\
  fs_dirs f ⊆ fs_dirs f' /\ fs_dirs f' ⊆ list_to_set qs ∪ fs_dirs f /\
  (r = Ok tt -> fs_dirs f' = list_to_set qs ∪ fs_dirs f /\
                Forall (fun q => q ∉ dom (fs_files f)) qs) /\
  (Exists (fun q => q ∈ dom (fs_files f)) qs -> exists m, r = Throw m).
Proof.
  revert f. induction qs as [|q qs IH]; intros f; simpl.
  - split; [reflexivity|]. split; [reflexivity|]. split; [set_solver|]. split; [set_solver|].
    split; [intros _; split; [set_solver | constructor]|]. intros Hx. inversion Hx.
  - case_bool_decide as Hf.
    + split; [reflexivity|]. split; [reflexivity|]. split; [set_solver|]. split; [set_solver|].
      split; [discriminate|]. intros _. eexists. reflexivity.
    + case_bool_decide as Hd.
      * specialize (IH f). destruct (mkdirp_go p qs f) as [r f'].
        destruct IH as (H1 & H2 & H3 & H4 & H5 & H6).
        split; [exact H1|]. split; [exact H2|]. split; [exact H3|]. split; [set_solver|].
        split.
        -- intros Hr. destruct (H5 Hr) as [Hd' Hn]. split; [rewrite Hd'; set_solver|].
           constructor; assumption.
        -- intros Hx. inversion Hx as [? ? Hq|? ? Hq]; subst; [contradiction | exact (H6 Hq)].
      * case_bool_decide as Hro.
        -- split; [reflexivity|]. split; [reflexivity|]. split; [set_solver|]. split; [set_solver|].
           split; [discriminate|]. intros _. eexists. reflexivity.
        -- specialize (IH (mkFs (fs_files f) ({[q]} ∪ fs_dirs f) (fs_readonly f))).
           destruct (mkdirp_go p qs _) as [r f'].
           destruct IH as (H1 & H2 & H3 & H4 & H5 & H6). simpl in *.
           split; [exact H1|]. split; [exact H2|]. split; [set_solver|]. split; [set_solver|].
           split.
           ++ intros Hr. destruct (H5 Hr) as [Hd' Hn]. split; [rewrite Hd'; set_solver|].
              constructor; assumption.
           ++ intros Hx. inversion Hx as [? ? Hq|? ? Hq]; subst; [contradiction | exact (H6 Hq)].
Qed.

Lemma mkdirp_go_noop (p : path) (qs : list path) (f : fsys) :
  Forall (fun q => q ∉ dom (fs_files f) /\ q ∈ fs_dirs f) qs -> mkdirp_go p qs f = (Ok tt, f).
Proof.
  induction 1 as [|q qs [Hf Hd] _ IH]; simpl; [reflexivity|].
  rewrite bool_decide_false by exact Hf. rewrite bool_decide_true by exact Hd. exact IH.
Qed.

Lemma existsb_false_iff (f : fsys) (p : path) :
  existsb (fun q => bool_decide (q ∈ dom (fs_files f))) (path_prefixes p) = false <-> no_file_prefix f p.
Proof.
  unfold no_file_prefix. rewrite <- Bool.not_true_iff_false, existsb_exists, List.Forall_forall.
  split.
  - intros H q Hq Hd. apply H. exists q. split; [exact Hq | apply bool_decide_eq_true_2; exact Hd].
  - intros H (q & Hq & Hd). apply bool_decide_eq_true in Hd. exact (H q Hq Hd).
Qed.

Lemma not_no_file_prefix (f : fsys) (p : path) :
  ~ no_file_prefix f p -> Exists (fun q => q ∈ dom (fs_files f)) (path_prefixes p).
Proof.
  intros Hn. destruct (existsb (fun q => bool_decide (q ∈ dom (fs_files f))) (path_prefixes p)) eqn:E.
  - apply existsb_exists in E as (q & Hq & Hd). apply List.Exists_exists. exists q.
    split; [exact Hq | exact (bool_decide_eq_true_1 _ Hd)].
  - apply existsb_false_iff in E. contradiction.
Qed.

(** One [mkdir -p]: files and read-only marks are kept, only prefixes of
    [p] are added, and a file on the way makes it throw; on success the
    result is [mkdir_fs p f]. *)
Lemma fs_mkdir_props (p : path) (f : fsys) (l : list event) :
  let '(r, (f', l')) := fs_mkdir_recursive p (f, l) in
  fs_files f' = fs_files f /\ fs_readonly f' = fs_readonly f /\
  fs_dirs f ⊆ fs_dirs f' /\ fs_dirs f' ⊆ fs_dirs (mkdir_fs p f) /\ l' = l ++ [EvMkdir p] /\
  (~ no_file_prefix f p -> exists m, r = Throw m) /\
  (r = Ok tt -> f' = mkdir_fs p f /\ no_file_prefix f p).
Proof.
  rewrite fs_mkdir_run. pose proof (mkdirp_go_spec p (path_prefixes p) f) as H.
  destruct (mkdirp_go p (path_prefixes p) f) as [r f'].
  destruct H as (H1 & H2 & H3 & H4 & H5 & H6).
  split; [exact H1|]. split; [exact H2|]. split; [exact H3|]. split; [exact H4|].
  split; [reflexivity|]. split; [intros Hn; apply H6, not_no_file_prefix, Hn|].
  intros Hr. destruct (H5 Hr) as [Hd Hn]. split; [|exact Hn].
  destruct f' as [a b c]. unfold mkdir_fs. simpl in *. subst. reflexivity.
Qed.

Lemma path_prefixes_spec (p q : path) :
  In q (path_prefixes p) <-> exists k, (1 <= k <= length p)%nat /\ q = take k p.
Proof.
  unfold path_prefixes. rewrite in_map_iff. split.
  - intros (k & <- & Hk). apply in_seq in Hk. exists k. split; [lia | reflexivity].
  - intros (k & Hk & ->). exists k. split; [reflexivity | apply in_seq; lia].
Qed.

Lemma path_prefixes_self (p : path) : p <> [] -> In p (path_prefixes p).
Proof.
  intros Hp. apply path_prefixes_spec. exists (length p). split; [|symmetry; apply take_ge; lia].
  destruct p; [congruence | simpl; lia].
Qed.

Lemma mkdir_fs_wf (p : path) (f : fsys) :
  fs_wf f -> Forall seg_ok p -> no_file_prefix f p -> fs_wf (mkdir_fs p f).
Proof.
  intros (H1 & H2 & H3 & H4) Hp Hn. unfold mkdir_fs, no_file_prefix in *. simpl.
  rewrite List.Forall_forall in Hn.
  split; [|split; [|split]].
  - intros q [Hq|Hq]; [apply H1; left; exact Hq|].
    apply elem_of_union in Hq as [Hq|Hq]; [|apply H1; right; exact Hq].
    apply elem_of_list_to_set, list_elem_of_In, path_prefixes_spec in Hq as (k & _ & ->).
    apply Forall_take, Hp.
  - intros q n [Hq|Hq]; [destruct (H2 q n (or_introl Hq)); [left | right; set_solver]; assumption|].
    apply elem_of_union in Hq as [Hq|Hq]; [|destruct (H2 q n (or_intror Hq)); [left | right; set_solver]; assumption].
    apply elem_of_list_to_set, list_elem_of_In, path_prefixes_spec in Hq as (k & Hk & Hq).
    assert (Hl : length (take k p) = k) by (rewrite length_take; lia).
    rewrite <- Hq, length_app in Hl. simpl in Hl.
    assert (Hq' : q = take (length q) p).
    { transitivity (take (length q) (q ++ [n])); [symmetry; apply take_app_length|].
      rewrite Hq, take_take. f_equal. lia. }
    destruct q as [|x q]; [left; reflexivity | right].
    apply elem_of_union. left. apply elem_of_list_to_set, list_elem_of_In, path_prefixes_spec.
    exists (length (x :: q)). split; [simpl in *; lia | exact Hq'].
  - intros q Hq Hd. apply elem_of_union in Hd as [Hd|Hd]; [|exact (H3 q Hq Hd)].
    apply elem_of_list_to_set, list_elem_of_In in Hd. exact (Hn q Hd Hq).
  - set_solver.
Qed.

Lemma config_dirs_seg : Forall seg_ok (inputDir config) /\ Forall seg_ok (outputDir config).
Proof. split; repeat constructor; apply seg_okb_sound; reflexivity. Qed.

Lemma ensureDirectoriesExist_run (st : fsys * list event) :
  ensureDirectoriesExist st =
    (fs_mkdir_recursive (inputDir config) ;;; fs_mkdir_recursive (outputDir config)) st.
Proof.
  unfold ensureDirectoriesExist, catch, throw.
  destruct ((_ ;;; _) st) as [[[]|m] st']; reflexivity.
Qed.

Lemma in_mkdir_fs (p : path) (f : fsys) : p <> [] -> p ∈ fs_dirs (mkdir_fs p f).
Proof.
  intros Hp. simpl. apply elem_of_union. left.
  apply elem_of_list_to_set, list_elem_of_In, path_prefixes_self, Hp.
Qed.

Lemma mkdir_fs_dirs (p : path) (f : fsys) : fs_dirs f ⊆ fs_dirs (mkdir_fs p f).
Proof. simpl. set_solver. Qed.

Lemma ensureDirectoriesExist_props (f : fsys) (l : list event) :
  let '(r, (f', l')) := ensureDirectoriesExist (f, l) in
  fs_files f' = fs_files f /\ fs_readonly f' = fs_readonly f /\ fs_dirs f ⊆ fs_dirs f' /\
  fs_dirs f' ⊆ fs_dirs (mkdir_fs (outputDir config) (mkdir_fs (inputDir config) f)) /\
  (~ (no_file_prefix f (inputDir config) /\ no_file_prefix f (outputDir config)) ->
   exists m, r = Throw m) /\
  (r = Ok tt -> f' = mkdir_fs (outputDir config) (mkdir_fs (inputDir config) f) /\
                l' = l ++ [EvMkdir (inputDir config); EvMkdir (outputDir config)] /\
                no_file_prefix f (inputDir config) /\ no_file_prefix f (outputDir config)).
Proof.
  rewrite ensureDirectoriesExist_run. unfold bind at 1.
  pose proof (fs_mkdir_props (inputDir config) f l) as H.
  destruct (fs_mkdir_recursive (inputDir config) (f, l)) as [r1 [f1 l1]].
  destruct H as (H1 & H2 & H3 & H4 & H5 & H6 & H7).
  destruct r1 as [[]|m].
  - destruct (H7 eq_refl) as [-> Hn1].
    pose proof (fs_mkdir_props (outputDir config) (mkdir_fs (inputDir config) f) l1) as K.
    destruct (fs_mkdir_recursive (outputDir config) _) as [r2 [f2 l2]].
    destruct K as (K1 & K2 & K3 & K4 & K5 & K6 & K7). simpl in K1, K2.
    split; [exact K1|]. split; [exact K2|]. split; [etransitivity; [apply mkdir_fs_dirs | exact K3]|].
    split; [exact K4|]. split.
    + intros Hn. apply K6. intros Ho. apply Hn. split; [exact Hn1 | exact Ho].
    + intros Hr. destruct (K7 Hr) as [-> Hn2]. split; [reflexivity|].
      split; [rewrite K5, H5, <- app_assoc; reflexivity|]. split; [exact Hn1 | exact Hn2].
  - split; [exact H1|]. split; [exact H2|]. split; [exact H3|].
    split; [etransitivity; [exact H4 | apply mkdir_fs_dirs]|].
    split; [intros _; eexists; reflexivity | discriminate].
Qed.

Lemma mkdir_fs_dirs_prefixes (p : path) (f : fsys) (q : path) :
  q ∈ fs_dirs (mkdir_fs p f) -> q ∈ fs_dirs f \/ In q (path_prefixes p).
Proof.
  simpl. intros Hq. apply elem_of_union in Hq as [Hq|Hq]; [right|left; exact Hq].
  apply elem_of_list_to_set, list_elem_of_In in Hq. exact Hq.
Qed.

Lemma ensureDirectoriesExist_facts (f : fsys) (l : list event) :
  let '(r, (f', l')) := ensureDirectoriesExist (f, l) in
  fs_files f' = fs_files f /\ fs_readonly f' = fs_readonly f /\ fs_dirs f ⊆ fs_dirs f' /\
  (forall q, q ∈ fs_dirs f' ->
     q ∈ fs_dirs f \/ In q (path_prefixes (inputDir config)) \/ In q (path_prefixes (outputDir config))) /\
  (~ (no_file_prefix f (inputDir config) /\ no_file_prefix f (outputDir config)) ->
   exists m, r = Throw m) /\
  (r = Ok tt -> inputDir config ∈ fs_dirs f' /\ outputDir config ∈ fs_dirs f' /\
                (fs_wf f -> fs_wf f')).
Proof.
  pose proof (ensureDirectoriesExist_props f l) as H.
  destruct (ensureDirectoriesExist (f, l)) as [r [f' l']].
  destruct H as (H1 & H2 & H3 & H4 & H5 & H6).
  split; [exact H1|]. split; [exact H2|]. split; [exact H3|]. split.
  - intros q Hq. apply H4, mkdir_fs_dirs_prefixes in Hq as [Hq|Hq]; [|tauto].
    apply mkdir_fs_dirs_prefixes in Hq as [Hq|Hq]; tauto.
  - split; [exact H5|]. intros Hr. destruct (H6 Hr) as (-> & _ & Hn1 & Hn2).
    split; [|split].
    + apply mkdir_fs_dirs, in_mkdir_fs. discriminate.
    + apply in_mkdir_fs. discriminate.
    + intros Hwf. apply mkdir_fs_wf; [apply mkdir_fs_wf; [exact Hwf | apply config_dirs_seg | exact Hn1]
                                    | apply config_dirs_seg | exact Hn2].
Qed.

(** [ensureDirectoriesExist] only adds directories, and only prefixes of
    the two configured directories: files and read-only marks are kept.  A
    file on a prefix of either directory makes it throw.  On success both
    directories exist and a well-formed file system stays well-formed. *)
Theorem ensureDirectoriesExist_spec (f : fsys) (l : list event) :
  let '(r, (f', l')) := ensureDirectoriesExist (f, l) in
  fs_files f' = fs_files f /\ fs_readonly f' = fs_readonly f /\ fs_dirs f ⊆ fs_dirs f' /\
  (forall q, q ∈ fs_dirs f' ->
     q ∈ fs_dirs f \/ In q (path_prefixes (inputDir config)) \/ In q (path_prefixes (outputDir config))) /\
  (~ (no_file_prefix f (inputDir config) /\ no_file_prefix f (outputDir config)) ->
   exists m, r = Throw m) /\
  (r = Ok tt -> inputDir config ∈ fs_dirs f' /\ outputDir config ∈ fs_dirs f' /\
                (fs_wf f -> fs_wf f')).
Proof. exact (ensureDirectoriesExist_facts f l). Qed.


Lemma mkdir_fs_prefixes_ok (p : path) (f : fsys) :
  no_file_prefix f p ->
  Forall (fun q => q ∉ dom (fs_files (mkdir_fs p f)) /\ q ∈ fs_dirs (mkdir_fs p f)) (path_prefixes p).
Proof.
  unfold no_file_prefix. rewrite !List.Forall_forall. intros Hn q Hq. split; [exact (Hn q Hq)|].
  simpl. apply elem_of_union. left. apply elem_of_list_to_set, list_elem_of_In, Hq.
Qed.

Lemma ensureDirectoriesExist_ok_fs (f f1 : fsys) (l l1 : list event) :
  ensureDirectoriesExist (f, l) = (Ok tt, (f1, l1)) ->
  f1 = mkdir_fs (outputDir config) (mkdir_fs (inputDir config) f) /\
  l1 = l ++ [EvMkdir (inputDir config); EvMkdir (outputDir config)] /\
  no_file_prefix f (inputDir config) /\ no_file_prefix f (outputDir config).
Proof.
  intros E. pose proof (ensureDirectoriesExist_props f l) as H. rewrite E in H.
  destruct H as (_ & _ & _ & _ & _ & H). exact (H eq_refl).
Qed.

(** After a successful [ensureDirectoriesExist], running it again succeeds
    and changes nothing but the log. *)
Theorem ensureDirectoriesExist_idempotent (f f' : fsys) (l l' : list event) :
  ensureDirectoriesExist (f, l) = (Ok tt, (f', l')) ->
  ensureDirectoriesExist (f', l') =
    (Ok tt, (f', l' ++ [EvMkdir (inputDir config); EvMkdir (outputDir config)])).
Proof.
  intros E. apply ensureDirectoriesExist_ok_fs in E as (-> & _ & Hn1 & Hn2).
  rewrite ensureDirectoriesExist_run. unfold bind at 1. rewrite fs_mkdir_run.
  rewrite mkdirp_go_noop.
  2:{ pose proof (mkdir_fs_prefixes_ok _ _ Hn1) as K. eapply Forall_impl; [exact K|].
      intros q [Ha Hb]. split; [exact Ha|]. apply mkdir_fs_dirs, Hb. }
  rewrite fs_mkdir_run, mkdirp_go_noop.
  2:{ pose proof (mkdir_fs_prefixes_ok (outputDir config) (mkdir_fs (inputDir config) f) Hn2) as K.
      exact K. }
  rewrite <- app_assoc. reflexivity.
Qed.

Lemma mkdir_fs_dirs_short (p : path) (f : fsys) (q : path) :
  q ∈ fs_dirs (mkdir_fs p f) -> q ∈ fs_dirs f \/ (length q <= length p)%nat.
Proof.
  simpl. intros Hq. apply elem_of_union in Hq as [Hq|Hq]; [right|left; exact Hq].
  apply elem_of_list_to_set, list_elem_of_In, path_prefixes_spec in Hq as (k & Hk & ->).
  rewrite length_take. lia.
Qed.

(** The [app.listen] callback throws when a prefix of either configured
    directory is a file.  When it succeeds both directories exist, nothing
    under the output directory was touched, and, when no entry directly in
    the input directory is a directory or read-only, every file directly in
    the input directory is gone. *)
Theorem startup_spec (f : fsys) (l : list event) :
  fs_wf f ->
  let '(r, (f', _)) := startup (f, l) in
  (~ (no_file_prefix f (inputDir config) /\ no_file_prefix f (outputDir config)) ->
   exists m, r = Throw m) /\
  (r = Ok tt ->
     inputDir config ∈ fs_dirs f' /\ outputDir config ∈ fs_dirs f' /\
     (forall q, take (length (outputDir config)) q = outputDir config ->
                fs_files f' !! q = fs_files f !! q) /\
     ((forall n, ((inputDir config ++ [n]) ∉ fs_dirs f) /\ (inputDir config ++ [n]) ∉ fs_readonly f) ->
      forall n, fs_files f' !! (inputDir config ++ [n]) = None)).
Proof.
  intros Hwf. pose proof (ensureDirectoriesExist_facts f l) as He.
  unfold startup, catch, bind.
  destruct (ensureDirectoriesExist (f, l)) as [r1 [f1 l1]] eqn:E1.
  destruct He as (Hf & Hro & Hd & _ & Hthr & Hok).
  destruct r1 as [[]|m].
  - destruct (Hok eq_refl) as (Hin & Hout & Hwf1). specialize (Hwf1 Hwf).
    pose proof (ensureDirectoriesExist_ok_fs _ _ _ _ E1) as (Hf1 & _).
    pose proof (cleanupDirectories_ok (f1, l1)) as Hc.
    pose proof (cleanupDirectories_all f1 l1 Hwf1) as Hall.
    destruct (cleanupDirectories (f1, l1)) as [r2 [f2 l2]] eqn:E2.
    simpl in Hc, Hall. subst r2.
    split; [intros Hn; destruct (Hthr Hn) as [m' Hm]; discriminate|]. intros _.
    pose proof (cleanupDirectories_frame _ _ _ _ _ E2) as [Hd2 Hfr].
    split; [rewrite Hd2; exact Hin|]. split; [rewrite Hd2; exact Hout|]. split.
    + intros q Hq. rewrite Hfr, Hf; [reflexivity|]. intros n Hn Heq.
      rewrite path_join_seg in Heq by (eapply fs_wf_entry_seg; eassumption). subst q.
      vm_compute in Hq. discriminate.
    + intros Hno n. apply Hall. intros n'. split.
      * intros Hdn. rewrite Hf1 in Hdn.
        apply mkdir_fs_dirs_short in Hdn as [Hdn|Hdn];
          [apply mkdir_fs_dirs_short in Hdn as [Hdn|Hdn]; [exact (proj1 (Hno n') Hdn)|]|];
          vm_compute in Hdn; lia.
      * rewrite Hro. apply Hno.
  - split; [intros _; eexists; reflexivity | discriminate].
Qed.
Lemma jobs_keys_step (w w' : world) :
  winv w -> step w w' -> jobs_dense w -> jobs_dense w'.
Proof.
  intros Hw Hs [Hk Hsz]. pose proof Hw as (Hc & _ & Hr). destruct Hs as
    [w ensure req resp t' Hu | w ensure req resp k j t' ev f others Hu Hj
    | w k j js Hrun | w param resp t' Hg]; unfold jobs_dense.
  - apply upload_handler_cases in Hu as [[_ ->] | [[=] _]]. auto.
  - apply upload_handler_cases in Hu as [[[=] _] | [[= ->] (Hc' & j0 & Hf & Ht')]].
    simpl. rewrite Ht', Hc'. split.
    + intros k'. rewrite lookup_insert_is_Some'. rewrite Hk. lia.
    + rewrite map_size_insert_None.
      * rewrite Hsz. lia.
      * apply eq_None_not_Some. rewrite Hk. lia.
  - simpl. destruct (Hr _ _ Hrun) as (j0 & Hj0 & _). split.
    + intros k'. rewrite lookup_insert_is_Some'. rewrite <- Hk.
      split; [intros [<- | H]; [exists j0; exact Hj0 | exact H] | intros H; right; exact H].
    + rewrite map_size_insert_Some by (exists j0; exact Hj0). exact Hsz.
  - apply get_job_status_state in Hg as ->. split; assumption.
Qed.

Lemma jobs_keys_steps (w w' : world) : rtc step w w' -> winv w -> jobs_dense w -> jobs_dense w'.
Proof.
  induction 1 as [x | x y z Hxy Hyz IH]; intros Hx HP; [exact HP|].
  apply IH; [apply (winv_step _ _ Hx Hxy) | apply (jobs_keys_step x y Hx Hxy HP)].
Qed.

Lemma jobs_keys_reachable (w : world) : reachable w -> jobs_dense w.
Proof.
  intros Hr. apply (jobs_keys_steps world_init w Hr winv_init).
  split; [|reflexivity]. intros k. simpl. rewrite lookup_empty.
  split; [intros [? H]; discriminate | lia].
Qed.

(** In every reachable state the job ids are exactly [1 .. jobCounter]. *)
Theorem job_ids_dense (w : world) :
  reachable w ->
  forall k, is_Some (conversionJobs (w_tracker w) !! k) <-> (0 < k <= jobCounter (w_tracker w))%Z.
Proof. intros Hr. apply (jobs_keys_reachable w Hr). Qed.

(** In every reachable state the health check reports [jobCounter] as
    the number of active jobs, and changes nothing. *)
Theorem health_counts_all_jobs (w : world) (uptime : spec_float) :
  reachable w ->
  health_check uptime (w_tracker w) =
    (Ok (200%Z, mkHealth "ok" "1.0.0" (Z.to_nat (jobCounter (w_tracker w))) uptime), w_tracker w).
Proof.
  intros Hr. unfold health_check. rewrite (proj2 (jobs_keys_reachable w Hr)). reflexivity.
Qed.

Lemma for_each_unlink_blocked (g : string -> path) (ns : list string) (f : fsys) (l : list event) n :
  n ∈ ns -> g n ∈ fs_dirs f \/ g n ∈ fs_readonly f ->
  exists m st, for_each ns (fun n => fs_unlink (g n)) (f, l) = (Throw m, st).
Proof.
  revert f l. induction ns as [|a ns IH]; intros f l Hn Hb; [inversion Hn|]. simpl. unfold bind.
  destruct (fs_unlink (g a) (f, l)) as [[u|m] [f1 l1]] eqn:E; [|eauto].
  destruct (fs_unlink_frame _ _ _ _ _ _ E) as (E1 & E2 & _).
  apply elem_of_cons in Hn as [<-|Hn].
  - exfalso. revert E. unfold fs_unlink, bind, log_ev. simpl.
    destruct Hb as [Hb|Hb].
    + rewrite bool_decide_true by exact Hb. discriminate.
    + destruct (bool_decide (g n ∈ fs_dirs f)); [discriminate|].
      rewrite bool_decide_true by exact Hb. discriminate.
  - apply IH; [exact Hn|]. rewrite E1, E2. exact Hb.
Qed.

Lemma cleanDirectoryImages_run (d : string) (f : fsys) (l : list event) :
  cleanDirectoryImages d (f, l) =
    let dirPath := path_join (outputDir config) d in
    if exists_path f dirPath then
      match fs_readdir dirPath (f, l ++ [EvAccess dirPath]) with
      | (Ok files, st) => for_each files (fun file => fs_unlink (path_join dirPath file)) st
      | (Throw m, st) => (Throw m, st)
      end
    else (Ok tt, (f, l ++ [EvAccess dirPath])).
Proof.
  unfold cleanDirectoryImages. cbv [catch bind ret]. unfold fs_access. cbv [bind log_ev].
  cbv zeta. destruct (exists_path f (path_join (outputDir config) d)); [|reflexivity].
  destruct (fs_readdir _ _) as [[files|m] st]; [|reflexivity].
  destruct (for_each _ _ _) as [[[]|m] st']; reflexivity.
Qed.

(** [cleanDirectoryImages] only removes plain files directly inside its
    directory: a missing directory is a no-op, success leaves no file
    there, and a subdirectory or read-only entry makes it throw. *)
Theorem cleanDirectoryImages_spec (d : string) (f : fsys) (l : list event) :
  fs_wf f ->
  let dirPath := path_join (outputDir config) d in
  let '(r, (f', _)) := cleanDirectoryImages d (f, l) in
  fs_dirs f' = fs_dirs f /\ fs_readonly f' = fs_readonly f /\
  (forall q, (forall n, q <> dirPath ++ [n]) -> fs_files f' !! q = fs_files f !! q) /\
  (exists_path f dirPath = false -> r = Ok tt /\ f' = f) /\
  (r = Ok tt -> forall n, fs_files f' !! (dirPath ++ [n]) = None) /\
  ((exists n, n ∈ dir_entries f dirPath /\
              ((dirPath ++ [n]) ∈ fs_dirs f \/ (dirPath ++ [n]) ∈ fs_readonly f)) ->
   exists m, r = Throw m).
Proof.
  intros Hwf dirPath.
  pose proof (cleanDirectoryImages_clears d f l) as Hcl.
  pose proof (cleanDirectoryImages_run d f l) as Hrun. fold dirPath in Hcl, Hrun.
  destruct (cleanDirectoryImages d (f, l)) as [r [f' l']] eqn:E.
  assert (Hjoin : forall n, n ∈ dir_entries f dirPath -> path_join dirPath n = dirPath ++ [n]).
  { intros n Hn. apply path_join_seg. eapply fs_wf_entry_seg; eassumption. }
  cbv zeta in Hrun. destruct (exists_path f dirPath) eqn:Ex.
  - rewrite fs_readdir_run in Hrun. destruct (bool_decide (dirPath ∈ fs_dirs f)) eqn:Hd.
    + apply bool_decide_eq_true in Hd.
      destruct (for_each_unlink_frame (path_join dirPath) _ _ _ _ _ _ (eq_sym Hrun)) as (F1 & F2 & F3).
      split; [exact F1|]. split; [exact F2|]. split.
      * intros q Hq. apply F3. intros n Hn. rewrite (Hjoin n Hn). apply Hq.
      * split; [discriminate|]. split; [intros Hr; subst r; eapply Hcl; [exact Hwf | reflexivity]|].
        intros (n & Hn & Hb). rewrite <- (Hjoin n Hn) in Hb.
        destruct (for_each_unlink_blocked (path_join dirPath) _ f (l ++ [EvAccess dirPath] ++ [EvReaddir dirPath]) n Hn Hb)
          as (m & st & Hm).
        rewrite app_assoc in Hm. rewrite Hm in Hrun. injection Hrun as -> _. eauto.
    + injection Hrun as -> -> _.
      split; [reflexivity|]. split; [reflexivity|]. split; [reflexivity|].
      split; [discriminate|]. split; [discriminate|]. eauto.
  - injection Hrun as -> -> _.
    split; [reflexivity|]. split; [reflexivity|]. split; [reflexivity|].
    split; [auto|]. split; [intros Hr; eapply Hcl; [exact Hwf | reflexivity]|].
    intros (n & Hn & _). exfalso. destruct Hwf as (_ & Hpar & _ & Hroot).
    apply dir_entries_spec in Hn.
    unfold exists_path in Ex. apply orb_false_iff in Ex as [_ Ex]. apply bool_decide_eq_false in Ex.
    destruct (Hpar dirPath n Hn) as [He|He]; [rewrite He in Ex|]; contradiction.
Qed.

(** A fresh job ends either completed, with the output directory as its
    output path and progress 100, or failed with the thrown message; both
    record the end time. *)
Theorem pipeline_outcome (ev : env) (f : fsys) (others : nat -> fsys -> fsys) (j : job) :
  fresh_job j ->
  let '(r, s') := run_pipeline ev f others j in
  match r with
  | Ok a =>
      a = path_str (path_join (outputDir config) (dirid_to_string (directoryId j))) /\
      status (p_job s') = Completed /\ outputPath (p_job s') = Some a /\
      endTime (p_job s') = Some (now ev) /\ progress (p_job s') = js_of_Z 100
  | Throw m =>
      status (p_job s') = Failed /\ error (p_job s') = Some m /\
      endTime (p_job s') = Some (now ev) /\ outputPath (p_job s') = None
  end.
Proof.
  intros Hj. pose proof (pipeline_chain ev f others j Hj) as [_ Hfin].
  destruct (run_pipeline ev f others j) as [r s'] eqn:E. simpl in Hfin.
  pose proof (convertPDFToImages_result _ _ _ _ _ _ E) as Hres.
  destruct r as [a|m].
  - destruct Hres as [Ha (j0 & Hj0)]. rewrite Hj0. split; [exact Ha|]. auto.
  - destruct Hres as (j0 & Hj0). destruct Hfin as ((_ & Ho) & Hs).
    rewrite Hj0 in Hs |- *. split; [reflexivity|]. split; [reflexivity|]. split; [reflexivity|].
    destruct (outputPath (fail_job m (now ev) j0)) eqn:Eo; [|reflexivity].
    rewrite Hj0 in Ho. rewrite Eo in Ho. destruct Ho as [Ho _].
    specialize (Ho ltac:(eexists; reflexivity)). rewrite fail_job_status in Ho. discriminate.
Qed.

Lemma cleanDirectoryImages_ok (d : string) (f : fsys) (l : list event) :
  fs_wf f ->
  let dirPath := path_join (outputDir config) d in
  dirPath ∈ fs_dirs f ->
  (forall n, ((dirPath ++ [n]) ∉ fs_dirs f) /\ (dirPath ++ [n]) ∉ fs_readonly f) ->
  exists f1 l1, cleanDirectoryImages d (f, l) = (Ok tt, (f1, l1)) /\ fs_dirs f1 = fs_dirs f.
Proof.
  intros Hwf dirPath Hd Hno. rewrite cleanDirectoryImages_run. cbv zeta. fold dirPath.
  assert (Hex : exists_path f dirPath = true).
  { unfold exists_path. apply orb_true_iff. right. apply bool_decide_eq_true, Hd. }
  rewrite Hex, fs_readdir_run, bool_decide_true by exact Hd.
  assert (Hg : forall m, m ∈ dir_entries f dirPath -> path_join dirPath m = dirPath ++ [m]).
  { intros m Hm. apply path_join_seg. eapply fs_wf_entry_seg; eassumption. }
  destruct (for_each_unlink_all (path_join dirPath) (dir_entries f dirPath) f
              ((l ++ [EvAccess dirPath]) ++ [EvReaddir dirPath])) as (f' & l' & Hrun & _).
  - apply dir_entries_NoDup.
  - intros n1 n2 H1 H2 He. rewrite (Hg n1 H1), (Hg n2 H2) in He.
    apply app_inj_tail in He as [_ He]. exact He.
  - intros m Hm. rewrite (Hg m Hm). destruct (Hno m) as [Hmd Hmr].
    split; [|split; assumption].
    apply dir_entries_spec in Hm as [Hm|Hm]; [exact Hm | contradiction].
  - exists f', l'. split; [exact Hrun|].
    destruct (for_each_unlink_frame _ _ _ _ _ _ _ Hrun) as (F1 & _ & _). exact F1.
Qed.

(** A directory id that leads from the output directory back to the input
    directory makes the pipeline delete the uploaded PDFs, after which it
    fails with a not-found message: on a well-formed file system where the
    input directory exists, no entry directly in it is a directory or
    read-only, and no other handler changes the file system during the run. *)
Theorem directoryId_traversal (ev : env) (f : fsys) (j : job) (n : string) :
  fs_wf f ->
  path_join (outputDir config) (dirid_to_string (directoryId j)) = inputDir config ->
  to_path (pdfPath j) = inputDir config ++ [n] ->
  inputDir config ∈ fs_dirs f ->
  (forall n', ((inputDir config ++ [n']) ∉ fs_dirs f) /\ (inputDir config ++ [n']) ∉ fs_readonly f) ->
  let '(r, s') := run_pipeline ev f no_others j in
  r = Throw (not_found_msg (pdfPath j)) /\ status (p_job s') = Failed /\
  forall n', fs_files (p_fs s') !! (inputDir config ++ [n']) = None.
Proof.
  intros Hwf Hpj Hpdf Hin Hno.
  assert (Hd : path_join (outputDir config) (dirid_to_string (directoryId j)) ∈ fs_dirs f)
    by (rewrite Hpj; exact Hin).
  assert (Hno' : forall n', ((path_join (outputDir config) (dirid_to_string (directoryId j)) ++ [n'])
                              ∉ fs_dirs f) /\
                            (path_join (outputDir config) (dirid_to_string (directoryId j)) ++ [n'])
                              ∉ fs_readonly f) by (rewrite Hpj; exact Hno).
  destruct (cleanDirectoryImages_ok (dirid_to_string (directoryId j)) f [] Hwf Hd Hno')
    as (f1 & l1 & Ec & Hd1).
  pose proof (cleanDirectoryImages_clears _ _ _ _ _ Hwf Ec) as Hcl. rewrite Hpj in Hcl.
  destruct (run_pipeline ev f no_others j) as [r s'] eqn:E.
  unfold run_pipeline, convertPDFToImages, convert_open in E.
  cbv [bind catch modify_job await_fs await_ext snapshot lift_fs lift_res ret throw] in E. simpl in E.
  unfold no_others in E. rewrite Ec in E. simpl in E.
  unfold fs_access in E. cbv [bind log_ev] in E. simpl in E.
  assert (Ea : exists_path f1 (to_path (pdfPath j)) = false).
  { rewrite Hpdf. unfold exists_path. apply orb_false_iff. split.
    - apply bool_decide_eq_false. apply not_elem_of_dom. apply Hcl.
    - apply bool_decide_eq_false. rewrite Hd1. apply Hno. }
  rewrite Ea in E. simpl in E. injection E as <- <-. simpl.
  split; [reflexivity|]. split; [reflexivity|]. exact Hcl.
Qed.

Lemma same_ident_refl (a : job) : same_ident a a.
Proof. repeat split. Qed.

Lemma same_ident_trans (a b c : job) : same_ident a b -> same_ident b c -> same_ident a c.
Proof. unfold same_ident. intuition congruence. Qed.

Lemma convertPDFToImages_keeps (ev : env) (p : string) (d : dirid) :
  keeps_ident (convertPDFToImages ev p d).
Proof.
  unfold keeps_ident, convertPDFToImages, convert_open, convert_pages, convert_page.
  rkeeps same_ident_refl same_ident_trans ltac:(repeat split).
Qed.

(** Every record the pipeline publishes keeps the job's id, directory id,
    PDF path and start time. *)
Theorem pipeline_keeps_identity (ev : env) (f : fsys) (others : nat -> fsys -> fsys) (j : job) :
  forall j', In j' (pipeline_trace ev f others j) ->
  job_id j' = job_id j /\ directoryId j' = directoryId j /\
  pdfPath j' = pdfPath j /\ startTime j' = startTime j.
Proof.
  intros j' Hj'. unfold pipeline_trace in Hj'.
  destruct (run_pipeline ev f others j) as [r s'] eqn:E. simpl in Hj'.
  destruct (convertPDFToImages_keeps ev (pdfPath j) (directoryId j) _ _ _ E I) as (l & Ho & Hc & _).
  simpl in Ho, Hc. rewrite Ho in Hj'.
  destruct (chain_head same_ident j _ same_ident_trans Hc j' Hj') as (H1 & H2 & H3 & H4).
  auto.
Qed.

(** When a prefix of a configured directory is a file, the upload answers
    500 and leaves the tracker unchanged. *)
Theorem upload_blocked_dirs (f : fsys) (l : list event) (req : upload_req) (t : tracker) :
  ~ (no_file_prefix f (inputDir config) /\ no_file_prefix f (outputDir config)) ->
  exists m, upload_handler (fst (ensureDirectoriesExist (f, l))) req t =
              (Ok (mkResp 500 (BError m), None), t).
Proof.
  intros Hb. pose proof (ensureDirectoriesExist_props f l) as He.
  destruct (ensureDirectoriesExist (f, l)) as [r [f' l']]. simpl.
  destruct He as (_ & _ & _ & _ & Hthr & _).
  destruct (Hthr Hb) as [m ->]. exists m. reflexivity.
Qed.

(** A successful upload creates job [jobCounter + 1], stamped with the
    second clock read; a status query whose parameter parses to that id
    right after returns it as pending at progress 0. *)
Theorem upload_then_get (ensure : res unit) (req : upload_req) (t t' : tracker)
    (resp : response) (k : Z) (param : string) :
  upload_handler ensure req t = (Ok (resp, Some k), t') ->
  parseInt param = Some k ->
  let d := match req_directoryId req with
           | Some s => if String.eqb s "" then DirNum (req_now req) else DirStr s
           | None => DirNum (req_now req)
           end in
  k = (jobCounter t + 1)%Z /\
  resp = mkResp 200 (BUploaded "PDF uploaded successfully, conversion started" k d) /\
  get_job_status param t' =
    (Ok (mkResp 200 (BJob (mkJobResponse k d Pending (js_of_Z 0) 0 0 None (req_startTime req)
                                         None None None None))), t').
Proof.
  unfold upload_handler, catch, bind, lift_res, ret.
  destruct ensure as [[]|m]; [|discriminate].
  destruct (req_file req) as [p|]; [|discriminate].
  intros H Hp. injection H as <- <- <-. split; [reflexivity|]. split; [reflexivity|].
  unfold get_job_status. rewrite Hp. simpl. rewrite lookup_insert_eq. reflexivity.
Qed.

Lemma fs_demo_no_input_dirs (n : string) :
  ((inputDir config ++ [n]) ∉ fs_dirs fs_demo) /\ (inputDir config ++ [n]) ∉ fs_readonly fs_demo.
Proof.
  split.
  - intros Hin. pose proof fs_demo_dirs_short as Hs. rewrite List.forallb_forall in Hs.
    specialize (Hs _ (proj1 (list_elem_of_In _ _) (proj2 (elem_of_elements _ _) Hin))).
    vm_compute in Hs. discriminate.
  - simpl. apply not_elem_of_empty.
Qed.

Lemma ensureDirectoriesExist_idempotent_witness :
  ensureDirectoriesExist (fs_demo, []) =
    (Ok tt, (fst (snd (ensureDirectoriesExist (fs_demo, []))),
             snd (snd (ensureDirectoriesExist (fs_demo, []))))) /\
  ensureDirectoriesExist (fst (snd (ensureDirectoriesExist (fs_demo, []))),
                          snd (snd (ensureDirectoriesExist (fs_demo, [])))) =
    (Ok tt, (fst (snd (ensureDirectoriesExist (fs_demo, []))),
             snd (snd (ensureDirectoriesExist (fs_demo, []))) ++
               [EvMkdir (inputDir config); EvMkdir (outputDir config)])).
Proof.
  split; [vm_compute; reflexivity|].
  apply (ensureDirectoriesExist_idempotent fs_demo _ []). vm_compute. reflexivity.
Defined.

Lemma startup_spec_witness :
  fs_wf fs_demo /\
  let '(r, (f', _)) := startup (fs_demo, []) in
  (~ (no_file_prefix fs_demo (inputDir config) /\ no_file_prefix fs_demo (outputDir config)) ->
   exists m, r = Throw m) /\
  (r = Ok tt ->
     inputDir config ∈ fs_dirs f' /\ outputDir config ∈ fs_dirs f' /\
     (forall q, take (length (outputDir config)) q = outputDir config ->
                fs_files f' !! q = fs_files fs_demo !! q) /\
     ((forall n, ((inputDir config ++ [n]) ∉ fs_dirs fs_demo) /\ (inputDir config ++ [n]) ∉ fs_readonly fs_demo) ->
      forall n, fs_files f' !! (inputDir config ++ [n]) = None)).
Proof.
  split; [apply fs_wfb_sound; vm_compute; reflexivity|].
  apply startup_spec. apply fs_wfb_sound. vm_compute. reflexivity.
Defined.

Lemma upload_then_get_witness :
  upload_handler (Ok tt) req_demo (w_tracker world_init) =
    (Ok (mkResp 200 (BUploaded "PDF uploaded successfully, conversion started" 1 (DirStr "42")),
         Some 1%Z),
     snd (upload_handler (Ok tt) req_demo (w_tracker world_init))) /\
  parseInt "1" = Some 1%Z /\
  let d := match req_directoryId req_demo with
           | Some s => if String.eqb s "" then DirNum (req_now req_demo) else DirStr s
           | None => DirNum (req_now req_demo)
           end in
  1%Z = (jobCounter (w_tracker world_init) + 1)%Z /\
  mkResp 200 (BUploaded "PDF uploaded successfully, conversion started" 1 (DirStr "42")) =
    mkResp 200 (BUploaded "PDF uploaded successfully, conversion started" 1 d) /\
  get_job_status "1" (snd (upload_handler (Ok tt) req_demo (w_tracker world_init))) =
    (Ok (mkResp 200 (BJob (mkJobResponse 1 d Pending (js_of_Z 0) 0 0 None (req_startTime req_demo)
                                         None None None None))),
     snd (upload_handler (Ok tt) req_demo (w_tracker world_init))).
Proof.
  split; [vm_compute; reflexivity|]. split; [vm_compute; reflexivity|].
  apply (upload_then_get (Ok tt) req_demo).
  - vm_compute. reflexivity.
  - vm_compute. reflexivity.
Defined.
Lemma job_ids_dense_witness :
  reachable world_demo /\
  forall k, is_Some (conversionJobs (w_tracker world_demo) !! k) <->
            (0 < k <= jobCounter (w_tracker world_demo))%Z.
Proof.
  split; [exact world_demo_reachable|]. apply job_ids_dense. exact world_demo_reachable.
Defined.

Lemma health_counts_all_jobs_witness :
  reachable world_demo /\
  health_check (js_of_Z 3) (w_tracker world_demo) =
    (Ok (200%Z, mkHealth "ok" "1.0.0" (Z.to_nat (jobCounter (w_tracker world_demo))) (js_of_Z 3)),
     w_tracker world_demo).
Proof.
  split; [exact world_demo_reachable|]. apply health_counts_all_jobs. exact world_demo_reachable.
Defined.

Lemma cleanDirectoryImages_spec_witness :
  fs_wf fs_demo /\
  let dirPath := path_join (outputDir config) "../pdfs" in
  let '(r, (f', _)) := cleanDirectoryImages "../pdfs" (fs_demo, []) in
  fs_dirs f' = fs_dirs fs_demo /\ fs_readonly f' = fs_readonly fs_demo /\
  (forall q, (forall n, q <> dirPath ++ [n]) -> fs_files f' !! q = fs_files fs_demo !! q) /\
  (exists_path fs_demo dirPath = false -> r = Ok tt /\ f' = fs_demo) /\
  (r = Ok tt -> forall n, fs_files f' !! (dirPath ++ [n]) = None) /\
  ((exists n, n ∈ dir_entries fs_demo dirPath /\
              ((dirPath ++ [n]) ∈ fs_dirs fs_demo \/ (dirPath ++ [n]) ∈ fs_readonly fs_demo)) ->
   exists m, r = Throw m).
Proof.
  split; [apply fs_wfb_sound; vm_compute; reflexivity|].
  apply cleanDirectoryImages_spec. apply fs_wfb_sound. vm_compute. reflexivity.
Defined.

Lemma pipeline_outcome_witness :
  fresh_job job_demo /\
  let '(r, s') := run_pipeline ev_fail fs_demo no_others job_demo in
  match r with
  | Ok a =>
      a = path_str (path_join (outputDir config) (dirid_to_string (directoryId job_demo))) /\
      status (p_job s') = Completed /\ outputPath (p_job s') = Some a /\
      endTime (p_job s') = Some (now ev_fail) /\ progress (p_job s') = js_of_Z 100
  | Throw m =>
      status (p_job s') = Failed /\ error (p_job s') = Some m /\
      endTime (p_job s') = Some (now ev_fail) /\ outputPath (p_job s') = None
  end.
Proof.
  split; [repeat split|].
  apply pipeline_outcome. repeat split.
Defined.

Lemma directoryId_traversal_witness :
  fs_wf fs_demo /\
  path_join (outputDir config) (dirid_to_string (directoryId job_trav)) = inputDir config /\
  to_path (pdfPath job_trav) = inputDir config ++ ["a.pdf"] /\
  inputDir config ∈ fs_dirs fs_demo /\
  let '(r, s') := run_pipeline ev_fail fs_demo no_others job_trav in
  r = Throw (not_found_msg (pdfPath job_trav)) /\ status (p_job s') = Failed /\
  forall n', fs_files (p_fs s') !! (inputDir config ++ [n']) = None.
Proof.
  split; [apply fs_wfb_sound; vm_compute; reflexivity|].
  split; [vm_compute; reflexivity|]. split; [vm_compute; reflexivity|].
  split; [vm_compute; reflexivity|].
  apply (directoryId_traversal ev_fail fs_demo job_trav "a.pdf").
  - apply fs_wfb_sound. vm_compute. reflexivity.
  - vm_compute. reflexivity.
  - vm_compute. reflexivity.
  - vm_compute. reflexivity.
  - exact fs_demo_no_input_dirs.
Defined.

Lemma pipeline_keeps_identity_witness :
  In (set_status Processing job_demo) (pipeline_trace ev_fail fs_demo no_others job_demo) /\
  job_id (set_status Processing job_demo) = job_id job_demo /\
  directoryId (set_status Processing job_demo) = directoryId job_demo /\
  pdfPath (set_status Processing job_demo) = pdfPath job_demo /\
  startTime (set_status Processing job_demo) = startTime job_demo.
Proof.
  split; [vm_compute; left; reflexivity|].
  apply (pipeline_keeps_identity ev_fail fs_demo no_others). vm_compute. left. reflexivity.
Defined.

Lemma upload_blocked_dirs_witness :
  ~ (no_file_prefix fs_blocked (inputDir config) /\ no_file_prefix fs_blocked (outputDir config)) /\
  exists m, upload_handler (fst (ensureDirectoriesExist (fs_blocked, []))) req_demo (w_tracker world_init) =
              (Ok (mkResp 500 (BError m), None), w_tracker world_init).
Proof.
  assert (Hb : ~ (no_file_prefix fs_blocked (inputDir config) /\
                  no_file_prefix fs_blocked (outputDir config))).
  { intros [H _]. apply Forall_inv in H. apply H. vm_compute. reflexivity. }
  split; [exact Hb|]. apply upload_blocked_dirs. exact Hb.
Defined.
